(** * pgexplode: the schema graph, the join-path search and the table sequencer

    A shallow embedding of [pgexplode.py].  Python dictionaries keep their
    insertion order and the program iterates over them, so a dictionary is
    an association list with the two operations the program uses (lookup
    and assignment in place).  Exceptions are an explicit result type; the
    asynchronous generator [table_data] is a function that returns what was
    yielded together with how the generator stopped. *)

From stdpp Require Import gmap strings list pretty sorting.

Local Open Scope string_scope.
Local Open Scope list_scope.
Local Open Scope nat_scope.

(** ** Exceptions *)

Inductive exn : Type :=
| KeyError (key : string)
| IndexError
| ValueError
| RecursionError.

Inductive result (A : Type) : Type :=
| Ok (a : A)
| Raise (e : exn).

Arguments Ok {A} a.
Arguments Raise {A} e.

Definition bind {A B : Type} (r : result A) (k : A -> result B) : result B :=
  match r with
  | Ok a => k a
  | Raise e => Raise e
  end.

Notation "x <- r ;; k" := (bind r (fun x => k))
  (at level 100, r at next level, right associativity).

(** A [for] loop whose body may raise: the first exception leaves the loop. *)
Fixpoint foldM {A S : Type} (f : S -> A -> result S) (s : S) (l : list A)
  : result S :=
  match l with
  | [] => Ok s
  | x :: l' => s' <- f s x ;; foldM f s' l'
  end.

(** ** Dictionaries *)

Module Dict.

Definition t (V : Type) : Type := list (string * V).

(** [d[k]], [None] standing for the [KeyError]. *)
Fixpoint get {V : Type} (d : t V) (k : string) : option V :=
  match d with
  | [] => None
  | (k', v) :: d' => if decide (k' = k) then Some v else get d' k
  end.

(** [d[k] = v]: an existing key keeps its position, a new one goes last. *)
Fixpoint set {V : Type} (d : t V) (k : string) (v : V) : t V :=
  match d with
  | [] => [(k, v)]
  | (k', v') :: d' =>
      if decide (k' = k) then (k, v) :: d' else (k', v') :: set d' k v
  end.

Definition keys {V : Type} (d : t V) : list string := fst <$> d.

(** The representation invariant of a dictionary: no key occurs twice. *)
Definition wf {V : Type} (d : t V) : Prop := NoDup (keys d).

End Dict.

(** ** Rows of the two catalog queries *)

(** A row of [TABLE_SQL]. *)
Record TableRow : Type := {
  table_name : string;
  pk_cols : list string
}.

(** A row of [FK_SQL]; the two schema columns are never read by the program
    and are left out. *)
Record FkRow : Type := {
  constraint_name : string;
  fk_table_name : string;
  column_name : string;
  foreign_table_name : string;
  foreign_column_name : string;
  nullable : bool
}.

(** ** The graph *)

(** [(column_name, foreign_column_name, nullable)] *)
Definition Edge : Type := string * string * bool.

Record TableInfo : Type := {
  pks : list string;
  fks : Dict.t (list Edge)
}.

Definition Graph : Type := Dict.t TableInfo.

(** [(parent, from_col, to_col)] *)
Definition Hop : Type := string * string * string.

(** [skip and name in skip]: nothing is skipped when [skip] is [None] or
    empty. *)
Definition skipped (skip : option (list string)) (name : string) : bool :=
  match skip with
  | None => false
  | Some names => bool_decide (name ∈ names)
  end.

Definition add_table (skip : option (list string)) (graph : Graph)
    (row : TableRow) : Graph :=
  if skipped skip (table_name row) then graph
  else Dict.set graph (table_name row) {| pks := pk_cols row; fks := [] |}.

(** [graph[t]["fks"].setdefault(target, []).append(edge)] *)
Definition add_fk (skip : option (list string)) (graph : Graph) (row : FkRow)
  : result Graph :=
  if skipped skip (fk_table_name row) || skipped skip (foreign_table_name row)
  then Ok graph
  else
    match Dict.get graph (fk_table_name row) with
    | None => Raise (KeyError (fk_table_name row))
    | Some info =>
        let columns := default [] (Dict.get (fks info) (foreign_table_name row)) in
        let edge := (column_name row, foreign_column_name row, nullable row) in
        Ok (Dict.set graph (fk_table_name row)
              {| pks := pks info;
                 fks := Dict.set (fks info) (foreign_table_name row)
                          (columns ++ [edge]) |})
    end.

Definition build_graph (table_rows : list TableRow) (fk_rows : list FkRow)
    (skip : option (list string)) : result Graph :=
  foldM (add_fk skip) (fold_left (add_table skip) table_rows []) fk_rows.

(** ** find_joins *)

(** [candidates.sort(key=len)]: the sort is stable, so its result is the one
    of a stable insertion sort on the lengths. *)
Fixpoint insert_by_len {A : Type} (x : list A) (l : list (list A))
  : list (list A) :=
  match l with
  | [] => [x]
  | y :: l' =>
      if decide (length x ≤ length y) then x :: y :: l'
      else y :: insert_by_len x l'
  end.

Definition sort_by_len {A : Type} (l : list (list A)) : list (list A) :=
  foldr insert_by_len [] l.

(** The recursion is bounded by [limit], the interpreter's recursion limit:
    a call at depth [limit] raises [RecursionError]. *)
Fixpoint find_joins (limit : nat) (table root : string) (graph : Graph)
    (path : option (list Hop)) : result (option (list Hop)) :=
  match limit with
  | 0 => Raise RecursionError
  | S limit' =>
      if decide (table = root) then Ok path
      else
        let path := default [] path in
        match Dict.get graph table with
        | None => Raise (KeyError table)
        | Some info =>
            candidates <-
              foldM (fun candidates '(parent, columns) =>
                if decide (parent = table) then Ok candidates
                else
                  foldM (fun candidates '(from_col, to_col, nullable) =>
                    if negb nullable then
                      found <- find_joins limit' parent root graph
                                 (Some (path ++ [(parent, from_col, to_col)])) ;;
                      match found with
                      | Some (hop :: hops) => Ok (candidates ++ [hop :: hops])
                      | _ => Ok candidates
                      end
                    else Ok candidates)
                    candidates columns)
                [] (fks info) ;;
            Ok (head (sort_by_len candidates))
        end
  end.

(** ** table_data *)

(** ["JOIN {table} ON {on}"] for every hop, [last] being the table the
    previous hop arrived at. *)
Fixpoint join_parts (last : string) (joins : list Hop) : list string :=
  match joins with
  | [] => []
  | (parent, from_col, to_col) :: joins' =>
      ("JOIN " +:+ parent +:+ " ON "
         +:+ (last +:+ "." +:+ from_col +:+ " = " +:+ parent +:+ "." +:+ to_col))
        :: join_parts parent joins'
  end.

(** The body of the loop after [seen.add(child)]: the statement yielded for
    [child].  [root_id] is the text [format] renders for the root row id. *)
Definition select_for (limit : nat) (graph : Graph) (root root_id : string)
    (child : string) (info : TableInfo) : result string :=
  pk <- match pks info with
        | [] => Raise IndexError
        | pk :: _ => Ok pk
        end ;;
  joins <- find_joins limit child root graph None ;;
  match joins with
  | Some (hop :: hops) =>
      Ok (String.concat " "
            (["SELECT " +:+ child +:+ ".* FROM " +:+ child]
               ++ join_parts child (hop :: hops)
               ++ ["WHERE " +:+ root +:+ "." +:+ pk +:+ " = " +:+ root_id]))
  | _ =>
      if decide (child = root)
      then Ok ("SELECT * FROM " +:+ root +:+ " WHERE " +:+ pk +:+ " = " +:+ root_id)
      else Ok ("SELECT * FROM " +:+ child)
  end.

(** The state of the generator: the set [seen] and what was yielded so far. *)
Record GenState : Type := {
  seen : gset string;
  yielded : list (string * string)
}.

(** [set(info["fks"]).difference({child}) <= seen] *)
Definition resolvable (child : string) (info : TableInfo) (seen : gset string)
  : bool :=
  bool_decide (list_to_set (Dict.keys (fks info)) ∖ {[child]} ⊆ seen).

(** One pass of [for child, info in graph.items()].  An exception leaves the
    generator; what was yielded before it has already been consumed. *)
Fixpoint scan (limit : nat) (graph : Graph) (root root_id : string)
    (items : list (string * TableInfo)) (st : GenState)
  : GenState * option exn :=
  match items with
  | [] => (st, None)
  | (child, info) :: items' =>
      if bool_decide (child ∈ seen st) then
        scan limit graph root root_id items' st
      else if resolvable child info (seen st) then
        let seen' := {[child]} ∪ seen st in
        match select_for limit graph root root_id child info with
        | Ok select =>
            scan limit graph root root_id items'
              {| seen := seen'; yielded := yielded st ++ [(child, select)] |}
        | Raise e => ({| seen := seen'; yielded := yielded st |}, Some e)
        end
      else scan limit graph root root_id items' st
  end.

(** How a run of the generator stands after a number of passes. *)
Inductive Status : Type :=
| Finished
| Failed (e : exn)
| Running.

(** [while len(seen) < len(graph)], run for at most [passes] passes. *)
Fixpoint table_data_from (limit passes : nat) (graph : Graph)
    (root root_id : string) (st : GenState) : GenState * Status :=
  if decide (size (seen st) < length graph) then
    match passes with
    | 0 => (st, Running)
    | S passes' =>
        match scan limit graph root root_id graph st with
        | (st', Some e) => (st', Failed e)
        | (st', None) => table_data_from limit passes' graph root root_id st'
        end
    end
  else (st, Finished).

Definition table_data (limit passes : nat) (graph : Graph)
    (root root_id : string) : list (string * string) * Status :=
  let '(st, status) :=
    table_data_from limit passes graph root root_id
      {| seen := ∅; yielded := [] |} in
  (yielded st, status).

(** ** The row ids of the command line *)

(** A Python string is a sequence of code points; a [string] holds its
    UTF-8 encoding.  [code_points] decodes it, [None] standing for bytes
    that encode no code point (on a command line they become lone
    surrogates, which are no digits). *)
Definition continuation (b : N) : bool := ((128 <=? b) && (b <=? 191))%N.

(** A code point from [low] on (the shortest encoding only) that is no
    surrogate. *)
Definition scalar (low c : N) : option N :=
  if ((low <=? c) && (c <=? 1114111) && negb ((55296 <=? c) && (c <=? 57343)))%N
  then Some c else None.

Fixpoint decode (bytes : list N) : option (list N) :=
  match bytes with
  | [] => Some []
  | b1 :: bytes1 =>
      if (b1 <? 128)%N then cons b1 <$> decode bytes1
      else
        match bytes1 with
        | [] => None
        | b2 :: bytes2 =>
            if negb (continuation b2) then None
            else if ((192 <=? b1) && (b1 <? 224))%N then
              c ← scalar 128 ((b1 - 192) * 64 + (b2 - 128))%N;
              cons c <$> decode bytes2
            else
              match bytes2 with
              | [] => None
              | b3 :: bytes3 =>
                  if negb (continuation b3) then None
                  else if ((224 <=? b1) && (b1 <? 240))%N then
                    c ← scalar 2048
                          ((b1 - 224) * 4096 + (b2 - 128) * 64 + (b3 - 128))%N;
                    cons c <$> decode bytes3
                  else
                    match bytes3 with
                    | [] => None
                    | b4 :: bytes4 =>
                        if negb (continuation b4) then None
                        else if ((240 <=? b1) && (b1 <? 248))%N then
                          c ← scalar 65536
                                ((b1 - 240) * 262144 + (b2 - 128) * 4096
                                 + (b3 - 128) * 64 + (b4 - 128))%N;
                          cons c <$> decode bytes4
                        else None
                    end
              end
        end
  end.

Fixpoint bytes (s : string) : list N :=
  match s with
  | EmptyString => []
  | String a s' => Ascii.N_of_ascii a :: bytes s'
  end.

Definition code_points (s : string) : option (list N) := decode (bytes s).

(** The characters with [Numeric_Type=Decimal] come in runs of ten, from the
    zero up: the zeros of the runs, for the character database of
    CPython 3.11 (Unicode 14.0). *)
Definition decimal_zeros : list N :=
  [0x30; 0x660; 0x6F0; 0x7C0; 0x966; 0x9E6; 0xA66; 0xAE6; 0xB66; 0xBE6; 0xC66;
   0xCE6; 0xD66; 0xDE6; 0xE50; 0xED0; 0xF20; 0x1040; 0x1090; 0x17E0; 0x1810;
   0x1946; 0x19D0; 0x1A80; 0x1A90; 0x1B50; 0x1BB0; 0x1C40; 0x1C50; 0xA620;
   0xA8D0; 0xA900; 0xA9D0; 0xA9F0; 0xAA50; 0xABF0; 0xFF10; 0x104A0; 0x10D30;
   0x11066; 0x110F0; 0x11136; 0x111D0; 0x112F0; 0x11450; 0x114D0; 0x11650;
   0x116C0; 0x11730; 0x118E0; 0x11950; 0x11C50; 0x11D50; 0x11DA0; 0x16A60;
   0x16AC0; 0x16B50; 0x1D7CE; 0x1D7D8; 0x1D7E2; 0x1D7EC; 0x1D7F6; 0x1E140;
   0x1E2F0; 0x1E950; 0x1FBF0]%N.

(** The characters with [Numeric_Type=Digit]: superscripts, subscripts,
    circled digits and the like. *)
Definition other_digits : list (N * N) :=
  [(0xB2, 0xB3); (0xB9, 0xB9); (0x1369, 0x1371); (0x19DA, 0x19DA);
   (0x2070, 0x2070); (0x2074, 0x2079); (0x2080, 0x2089); (0x2460, 0x2468);
   (0x2474, 0x247C); (0x2488, 0x2490); (0x24EA, 0x24EA); (0x24F5, 0x24FD);
   (0x24FF, 0x24FF); (0x2776, 0x277E); (0x2780, 0x2788); (0x278A, 0x2792);
   (0x10A40, 0x10A43); (0x10E60, 0x10E68); (0x11052, 0x1105A);
   (0x1F100, 0x1F10A)]%N.

(** The value of a decimal digit. *)
Definition decimal (c : N) : option N :=
  (fun zero => (c - zero)%N)
    <$> find (fun zero => ((zero <=? c) && (c <? zero + 10))%N) decimal_zeros.

Definition digit (c : N) : bool :=
  match decimal c with
  | Some _ => true
  | None => existsb (fun r => ((r.1 <=? c) && (c <=? r.2))%N) other_digits
  end.

(** [s.isdigit()]: at least one character, and all of them digits. *)
Definition isdigit (s : string) : bool :=
  match code_points s with
  | Some (c :: cs) => forallb digit (c :: cs)
  | _ => false
  end.

(** [sys.int_info.default_max_str_digits] *)
Definition int_max_str_digits : nat := 4300.

(** [int(s)] for a string of digits, the only strings the program
    converts: [int] reads decimal digits, not the other digits, and at most
    [int_max_str_digits] of them. *)
Definition int_digits (s : string) : result Z :=
  match code_points s with
  | Some (c :: cs) =>
      if decide (length (c :: cs) ≤ int_max_str_digits) then
        match mapM decimal (c :: cs) with
        | Some ds => Ok (fold_left (fun n d => (10 * n + Z.of_N d)%Z) ds 0%Z)
        | None => Raise ValueError
        end
      else Raise ValueError
  | _ => Raise ValueError
  end.

(** A parameter of the query on the root table. *)
Inductive Param : Type :=
| PInt (n : Z)
| PStr (s : string).

(** [int(i) if i.isdigit() else i] *)
Definition param (i : string) : result Param :=
  if isdigit i then
    match int_digits i with
    | Ok n => Ok (PInt n)
    | Raise e => Raise e
    end
  else Ok (PStr i).

(** [[int(i) if i.isdigit() else i for i in opts.ids]]: the first id that
    cannot be converted ends the comprehension. *)
Fixpoint params (ids : list string) : result (list Param) :=
  match ids with
  | [] => Ok []
  | i :: ids' => p <- param i ;; ps <- params ids' ;; Ok (p :: ps)
  end.

(** ** The orchestrator *)

(** What the program does to the outside: text written to standard output
    and statements sent to the database. *)
Inductive Event : Type :=
| Print (text : string)
| Execute (sql : string).

(** A fetched row of the root table: column name to the text [format]
    renders for its value. *)
Definition Row : Type := Dict.t string.

(** The database as the program sees it.  The catalog of the [public]
    schema does not change during a run, so the two catalog queries have one
    answer each; every statement is taken to succeed.  [db_fetch] answers the
    query on the root table (the statement text and its parameters) and
    [db_inserted] is the row count at the end of the status of an
    [INSERT]. *)
Record Db : Type := {
  db_tables : list TableRow;
  db_fks : list FkRow;
  db_fetch : string -> list Param -> list Row;
  db_inserted : string -> nat
}.

Record Opts : Type := {
  opt_dbname : string;
  opt_table : string;
  opt_schema : option string;
  opt_ids : list string
}.

Definition nl : string := String (Ascii.ascii_of_nat 10) EmptyString.

Definition copy_table (db : Db) (table schema select : string)
  : list Event * nat :=
  let insert := "INSERT INTO " +:+ schema +:+ "." +:+ table
                  +:+ " (" +:+ select +:+ ")" in
  ([Execute ("CREATE TABLE " +:+ schema +:+ "." +:+ table
               +:+ " (LIKE public." +:+ table +:+ " INCLUDING ALL)");
    Execute insert],
   db_inserted db insert).

Definition alter_statement (schema : string) (row : FkRow) : string :=
  "ALTER TABLE " +:+ schema +:+ "." +:+ fk_table_name row
    +:+ " ADD CONSTRAINT " +:+ constraint_name row
    +:+ " FOREIGN KEY (" +:+ column_name row
    +:+ ") REFERENCES " +:+ schema +:+ "." +:+ foreign_table_name row
    +:+ " (" +:+ foreign_column_name row +:+ ")".

Definition restore_keys (db : Db) (schema : string) : list Event :=
  map (fun row => Execute (alter_statement schema row)) (db_fks db).

Definition warning : string := "Warning: Root table has FK links!" +:+ nl.

(** The events of [async for table, select in table_data(...)]: the
    generator is consumed one pair at a time. *)
Definition copy_events (db : Db) (schema : string)
    (pair : string * string) : list Event :=
  let '(table, select) := pair in
  let '(events, num) := copy_table db table schema select in
  [Print ("  ~ " +:+ table +:+ ": ")] ++ events ++ [Print (pretty num +:+ nl)].

(** The body of the loop over the root rows. *)
Definition explode_row (limit passes : nat) (db : Db) (graph : Graph)
    (opts : Opts) (pk : string) (row : Row) : list Event * Status :=
  let schema_name :=
    match opt_schema opts with
    | Some column =>
        if decide (column = "") then None
        else Some (from_option Ok (Raise (KeyError column)) (Dict.get row column))
    | None => None
    end in
  let schema_name :=
    match schema_name with
    | Some r => r
    | None =>
        from_option (fun v => Ok (opt_table opts +:+ "_" +:+ v))
          (Raise (KeyError pk)) (Dict.get row pk)
    end in
  match schema_name with
  | Raise e => ([], Failed e)
  | Ok schema =>
      let reset :=
        [Execute ("DROP SCHEMA IF EXISTS " +:+ schema +:+ " CASCADE");
         Execute ("CREATE SCHEMA " +:+ schema);
         Print ("+ " +:+ schema +:+ nl)] in
      match Dict.get row pk with
      | None => (reset, Failed (KeyError pk))
      | Some root_id =>
          let '(pairs, status) :=
            table_data limit passes graph (opt_table opts) root_id in
          let copied := reset ++ flat_map (copy_events db schema) pairs in
          match status with
          | Finished => (copied ++ restore_keys db schema, Finished)
          | _ => (copied, status)
          end
      end
  end.

Fixpoint explode_rows (limit passes : nat) (db : Db) (graph : Graph)
    (opts : Opts) (pk : string) (rows : list Row) : list Event * Status :=
  match rows with
  | [] => ([], Finished)
  | row :: rows' =>
      match explode_row limit passes db graph opts pk row with
      | (events, Finished) =>
          let '(events', status) :=
            explode_rows limit passes db graph opts pk rows' in
          (events ++ events', status)
      | stopped => stopped
      end
  end.

(** The query on the root table: all its rows, or those whose primary key
    is among the ids given, passed as parameters [$1], [$2], ... *)
Definition root_query (opts : Opts) (pk : string) : string :=
  let where_ :=
    match opt_ids opts with
    | [] => ""
    | _ :: _ =>
        let in_clause :=
          String.concat ", "
            (map (fun i => "$" +:+ pretty (i + 1))
               (seq 0 (length (opt_ids opts)))) in
        " WHERE " +:+ pk +:+ " IN (" +:+ in_clause +:+ ")"
    end in
  "SELECT * FROM " +:+ opt_table opts +:+ where_.

(** [if graph[opts.table]["fks"]: print(...)] *)
Definition root_warning (info : TableInfo) : list Event :=
  match fks info with
  | [] => []
  | _ :: _ => [Print warning]
  end.

Definition explode (limit passes : nat) (db : Db) (opts : Opts)
  : list Event * Status :=
  match build_graph (db_tables db) (db_fks db) None with
  | Raise e => ([], Failed e)
  | Ok graph =>
      match Dict.get graph (opt_table opts) with
      | None => ([], Failed (KeyError (opt_table opts)))
      | Some info =>
          match pks info with
          | [] => ([], Failed IndexError)
          | pk :: _ =>
              let warn := root_warning info in
              match params (opt_ids opts) with
              | Raise e => (warn, Failed e)
              | Ok ps =>
                  let rows := db_fetch db (root_query opts pk) ps in
                  let '(events, status) :=
                    explode_rows limit passes db graph opts pk rows in
                  (warn ++ events, status)
              end
          end
      end
  end.

(** ** The scenario of the specification *)

Module Scenario.

Definition tables : list TableRow :=
  [ {| table_name := "order"; pk_cols := ["id"] |};
    {| table_name := "order_item"; pk_cols := ["id"] |};
    {| table_name := "country"; pk_cols := ["code"] |} ].

Definition fkeys : list FkRow :=
  [ {| constraint_name := "order_item_order_id_fkey";
       fk_table_name := "order_item"; column_name := "order_id";
       foreign_table_name := "order"; foreign_column_name := "id";
       nullable := false |} ].

Definition db : Db :=
  {| db_tables := tables; db_fks := fkeys;
     db_fetch := fun _ _ => [[("id", "42")]];
     db_inserted := fun _ => 1 |}.

Definition opts : Opts :=
  {| opt_dbname := "shop"; opt_table := "order"; opt_schema := None;
     opt_ids := ["42"] |}.

Definition graph : Graph :=
  [ ("order", {| pks := ["id"]; fks := [] |});
    ("order_item",
     {| pks := ["id"]; fks := [("order", [("order_id", "id", false)])] |});
    ("country", {| pks := ["code"]; fks := [] |}) ].

Definition rank (t : string) : nat :=
  if decide (t = "order_item") then 1 else 0.

(** Exploding [order_item], whose rows reference [order]. *)
Definition item_db : Db :=
  {| db_tables := tables; db_fks := fkeys;
     db_fetch := fun _ _ => [[("id", "7"); ("order_id", "42")]];
     db_inserted := fun _ => 1 |}.

Definition item_opts : Opts :=
  {| opt_dbname := "shop"; opt_table := "order_item"; opt_schema := None;
     opt_ids := [] |}.

(** The same catalog, the primary key of [order_item] being named
    [item_id]. *)
Definition tables' : list TableRow :=
  [ {| table_name := "order"; pk_cols := ["id"] |};
    {| table_name := "order_item"; pk_cols := ["item_id"] |};
    {| table_name := "country"; pk_cols := ["code"] |} ].

Definition graph' : Graph :=
  [ ("order", {| pks := ["id"]; fks := [] |});
    ("order_item",
     {| pks := ["item_id"];
        fks := [("order", [("order_id", "id", false)])] |});
    ("country", {| pks := ["code"]; fks := [] |}) ].

End Scenario.

(** ** What the claims speak about *)

Definition hop_table (hop : Hop) : string := hop.1.1.

(** [hop] is a foreign key of [t] that [find_joins] follows: declared on
    [t], not nullable, and not pointing back to [t] itself. *)
Definition nn_edge (g : Graph) (t : string) (hop : Hop) : Prop :=
  hop_table hop ≠ t ∧
  ∃ info columns,
    Dict.get g t = Some info ∧
    (hop_table hop, columns) ∈ fks info ∧
    (hop.1.2, hop.2, false) ∈ columns.

Definition nn_step (g : Graph) (t p : string) : Prop :=
  ∃ from_col to_col, nn_edge g t (p, from_col, to_col).

(** [t] holds a foreign key into another table [p], nullable or not. *)
Definition fk_step (g : Graph) (t p : string) : Prop :=
  p ≠ t ∧ ∃ info, Dict.get g t = Some info ∧ p ∈ Dict.keys (fks info).

Definition acyclic (R : relation string) : Prop := ∀ t, ¬ tc R t t.

(** Consecutive hops are connected: each one starts where the previous one
    arrived. *)
Fixpoint chain (g : Graph) (t : string) (hops : list Hop) : Prop :=
  match hops with
  | [] => True
  | hop :: hops' => nn_edge g t hop ∧ chain g (hop_table hop) hops'
  end.

Definition chain_end (t : string) (hops : list Hop) : string :=
  default t (last (hop_table <$> hops)).

(** A join path from [t] back to [root]. *)
Definition join_chain (g : Graph) (t root : string) (hops : list Hop) : Prop :=
  hops ≠ [] ∧ chain g t hops ∧ chain_end t hops = root.

(** Every table a followed foreign key points to is a table of the graph,
    the root apart (the search never looks the root up). *)
Definition nn_closed (g : Graph) (root : string) : Prop :=
  ∀ t p, nn_step g t p → p = root ∨ is_Some (Dict.get g p).

(** Every table a foreign key points to is a table of the graph. *)
Definition fk_closed (g : Graph) : Prop :=
  ∀ t p, fk_step g t p → is_Some (Dict.get g p).

Definition has_pk (g : Graph) : Prop :=
  ∀ t info, (t, info) ∈ g → pks info ≠ [].

(** The foreign keys [find_joins] follows from [table], in the order of the
    two nested loops. *)
Definition nn_hops (table : string) (fkeys : Dict.t (list Edge)) : list Hop :=
  flat_map (fun '(parent, columns) =>
    if decide (parent = table) then []
    else flat_map (fun '(from_col, to_col, nullable) =>
           if negb nullable then [(parent, from_col, to_col)] else [])
           columns)
    fkeys.

(** The body of the inner loop of [find_joins]. *)
Definition collect (limit : nat) (root : string) (graph : Graph)
    (path : list Hop) (candidates : list (list Hop)) (hop : Hop)
  : result (list (list Hop)) :=
  found <- find_joins limit (hop_table hop) root graph (Some (path ++ [hop])) ;;
  match found with
  | Some (h :: hs) => Ok (candidates ++ [h :: hs])
  | _ => Ok candidates
  end.

(** An FK row the exclusion test of [build_graph] lets through. *)
Definition kept (skip : option (list string)) (row : FkRow) : Prop :=
  skipped skip (fk_table_name row) = false ∧
  skipped skip (foreign_table_name row) = false.

(** The tables [build_graph] creates nodes for. *)
Definition kept_tables (skip : option (list string))
    (table_rows : list TableRow) : list string :=
  filter (fun name => skipped skip name = false) (table_name <$> table_rows).

(** [hops] is a join path from [t] to [root] with the fewest hops. *)
Definition shortest (g : Graph) (t root : string) (hops : list Hop) : Prop :=
  join_chain g t root hops ∧
  ∀ hops', join_chain g t root hops' -> length hops ≤ length hops'.

(** The tables of a graph, as a set. *)
Definition keyset {V : Type} (d : Dict.t V) : gset string :=
  list_to_set (Dict.keys d).

(** The graph holds the foreign key [edge] from [t] to [p]. *)
Definition has_edge (g : Graph) (t p : string) (edge : Edge) : Prop :=
  ∃ info columns,
    Dict.get g t = Some info ∧
    Dict.get (fks info) p = Some columns ∧
    edge ∈ columns.

(** The edge [build_graph] stores for an FK row. *)
Definition edge_of (row : FkRow) : Edge :=
  (column_name row, foreign_column_name row, nullable row).

(** Every foreign-key map of the graph is a dictionary. *)
Definition fks_wf (g : Graph) : Prop :=
  ∀ t info, Dict.get g t = Some info -> Dict.wf (fks info).

(** ** The sequencer as a step relation *)

(** One table is resolved: its statement is computed and yielded. *)
Inductive resolves (limit : nat) (g : Graph) (root root_id : string)
  : GenState -> GenState -> Prop :=
| resolves_table (st : GenState) (child : string) (info : TableInfo)
    (select : string) :
    (child, info) ∈ g ->
    child ∉ seen st ->
    resolvable child info (seen st) = true ->
    select_for limit g root root_id child info = Ok select ->
    resolves limit g root root_id st
      {| seen := {[child]} ∪ seen st;
         yielded := yielded st ++ [(child, select)] |}.

(** A table is yielded only after the other tables it references. *)
Definition in_order (g : Graph) (ys : list (string * string)) : Prop :=
  ∀ i t s, ys !! i = Some (t, s) ->
           ∀ p, fk_step g t p -> p ∈ (take i ys).*1.

(** The invariant of the generator between two resolutions. *)
Record good (g : Graph) (st : GenState) : Prop := {
  good_seen : seen st = list_to_set (yielded st).*1;
  good_keys : seen st ⊆ keyset g;
  good_nodup : NoDup (yielded st).*1;
  good_order : in_order g (yielded st)
}.

(** Both tables of a foreign key are among [tables]. *)
Definition present (tables : list string) (row : FkRow) : Prop :=
  fk_table_name row ∈ tables ∧ foreign_table_name row ∈ tables.

Global Instance present_dec (tables : list string) (row : FkRow) :
  Decision (present tables row).
Proof. unfold present. apply _. Defined.

(** The edge [e] from [t] to [p] is the one of an FK row that passed the
    exclusion test. *)
Definition from_row (skip : option (list string)) (rows : list FkRow)
    (t p : string) (e : Edge) : Prop :=
  ∃ row, row ∈ rows ∧ kept skip row ∧ fk_table_name row = t
         ∧ foreign_table_name row = p ∧ e = edge_of row.

Global Instance kept_decision (skip : option (list string)) (row : FkRow) :
  Decision (kept skip row).
Proof. unfold kept. apply _. Defined.

(** The FK rows from [t] to [p] that pass the exclusion test, in the order
    of the query result. *)
Definition rows_of (skip : option (list string)) (t p : string)
    (fk_rows : list FkRow) : list FkRow :=
  filter (fun row => kept skip row ∧ fk_table_name row = t
                     ∧ foreign_table_name row = p) fk_rows.

(** The entry of a foreign-key map that a list of FK rows makes: none for
    no row. *)
Definition edges_entry (rows : list FkRow) : option (list Edge) :=
  match rows with
  | [] => None
  | _ :: _ => Some (edge_of <$> rows)
  end.

(** The statements sent to the database, in order. *)
Fixpoint executed (events : list Event) : list string :=
  match events with
  | [] => []
  | Execute sql :: events' => sql :: executed events'
  | Print _ :: events' => executed events'
  end.

(** The foreign keys [find_joins] follows from [t], none when [t] is not in
    the graph. *)
Definition followed (g : Graph) (t : string) : option (list Hop) :=
  (fun info => nn_hops t (fks info)) <$> Dict.get g t.

(** The row has the columns the run reads: the primary key, and the schema
    column when one is given. *)
Definition readable (opts : Opts) (pk : string) (row : Row) : Prop :=
  is_Some (Dict.get row pk) ∧
  ∀ column, opt_schema opts = Some column -> column ≠ "" ->
            is_Some (Dict.get row column).

(** ** Checks that decide the hypotheses on a given graph *)

(** The tables [t] holds a foreign key into, [t] itself apart. *)
Definition fk_targets (g : Graph) (t : string) : list string :=
  match Dict.get g t with
  | Some info => filter (fun p => p ≠ t) (Dict.keys (fks info))
  | None => []
  end.

(** Every foreign key leads to a table of strictly smaller rank. *)
Definition ranked (rank : string -> nat) (g : Graph) : bool :=
  forallb (fun '(t, info) =>
    forallb (fun p => bool_decide (p = t) || bool_decide (rank p < rank t))
      (Dict.keys (fks info))) g.

Definition closedb (g : Graph) : bool :=
  forallb (fun '(_, info) =>
    forallb (fun p => bool_decide (p ∈ Dict.keys g)) (Dict.keys (fks info))) g.

Definition has_pkb (g : Graph) : bool :=
  forallb (fun '(_, info) => negb (bool_decide (pks info = []))) g.

(** ** Graphs used as examples *)

Module Examples.

(** [t] references [r] and a table [v] that has no primary key, so that
    the table query does not return [v]. *)
Definition dangling_tables : list TableRow :=
  [ {| table_name := "t"; pk_cols := ["id"] |};
    {| table_name := "r"; pk_cols := ["id"] |} ].

Definition dangling_fkeys : list FkRow :=
  [ {| constraint_name := "t_r_fk"; fk_table_name := "t";
       column_name := "r_id"; foreign_table_name := "r";
       foreign_column_name := "id"; nullable := false |};
    {| constraint_name := "t_v_fk"; fk_table_name := "t";
       column_name := "v_id"; foreign_table_name := "v";
       foreign_column_name := "code"; nullable := false |} ].

Definition dangling : Graph :=
  [ ("t", {| pks := ["id"];
             fks := [("r", [("r_id", "id", false)]);
                     ("v", [("v_id", "code", false)])] |});
    ("r", {| pks := ["id"]; fks := [] |}) ].

(** [a] and [b] reference each other; neither references the root [r]. *)
Definition cyclic : Graph :=
  [ ("r", {| pks := ["id"]; fks := [] |});
    ("a", {| pks := ["id"]; fks := [("b", [("b_id", "id", false)])] |});
    ("b", {| pks := ["id"]; fks := [("a", [("a_id", "id", false)])] |}) ].

(** [c] references [b], [b] references [r], and [c] also references [r]
    directly; [d] stands alone. *)
Definition diamond : Graph :=
  [ ("r", {| pks := ["id"]; fks := [] |});
    ("c", {| pks := ["id"];
             fks := [("b", [("b_id", "id", false)]);
                     ("r", [("r_id", "id", false)])] |});
    ("b", {| pks := ["id"]; fks := [("r", [("r_id", "id", false)])] |});
    ("d", {| pks := ["id"]; fks := [] |}) ].

(** [u] has no primary key, so the table query does not return it, but
    it holds a foreign key into [r]. *)
Definition orphan_tables : list TableRow :=
  [ {| table_name := "r"; pk_cols := ["id"] |} ].

Definition orphan_fkey : FkRow :=
  {| constraint_name := "u_r_fk"; fk_table_name := "u";
     column_name := "r_id"; foreign_table_name := "r";
     foreign_column_name := "id"; nullable := false |}.

(** A table with an empty list of primary-key columns. *)
Definition keyless : Graph := [ ("r", {| pks := []; fks := [] |}) ].

(** [diamond] with a nullable foreign key from [b] to [d] and a
    self-reference of [c] added. *)
Definition diamond' : Graph :=
  [ ("r", {| pks := ["id"]; fks := [] |});
    ("c", {| pks := ["id"];
             fks := [("c", [("parent_id", "id", false)]);
                     ("b", [("b_id", "id", false)]);
                     ("r", [("r_id", "id", false)])] |});
    ("b", {| pks := ["id"];
             fks := [("r", [("r_id", "id", false)]);
                     ("d", [("d_id", "id", true)])] |});
    ("d", {| pks := ["id"]; fks := [] |}) ].






(** Two ids, the second one a superscript two. *)
Definition superscript_opts : Opts :=
  {| opt_dbname := "shop"; opt_table := "order_item"; opt_schema := None;
     opt_ids := ["7"; "²"] |}.

Definition diamond_rank (t : string) : nat :=
  if decide (t = "c") then 2 else if decide (t = "b") then 1 else 0.

End Examples.

(** * Lemmas *)

(** ** Loops that may raise *)

Section FoldM.
Context {A S : Type} (f : S -> A -> result S).

Lemma foldM_app (s : S) (l1 l2 : list A) :
  foldM f s (l1 ++ l2) = (s' <- foldM f s l1 ;; foldM f s' l2).
Proof.
  revert s. induction l1 as [|x l1 IH]; intros s; simpl; [done|].
  destruct (f s x); simpl; auto.
Qed.

(** An invariant over the part of the list already visited. *)
Lemma foldM_inv (P : list A -> S -> Prop) (l : list A) (s0 s : S) :
  P [] s0 ->
  (∀ visited x s1 s2,
      x ∈ l -> P visited s1 -> f s1 x = Ok s2 -> P (visited ++ [x]) s2) ->
  foldM f s0 l = Ok s -> P l s.
Proof.
  intros H0 Hstep.
  assert (Hgen : ∀ rest visited s1,
             visited ++ rest = l -> P visited s1 ->
             foldM f s1 rest = Ok s -> P l s).
  { induction rest as [|x rest IH]; intros visited s1 Hl HP Hrun; simpl in Hrun.
    - rewrite app_nil_r in Hl. by simplify_eq.
    - destruct (f s1 x) as [s2|e] eqn:Hf; simpl in Hrun; [|done].
      apply (IH (visited ++ [x]) s2); [by rewrite <- app_assoc| |done].
      eapply Hstep; [|done..]. rewrite <- Hl. set_solver. }
  intros Hrun. by apply (Hgen l [] s0).
Qed.

(** An exception of the loop is an exception of one run of its body. *)
Lemma foldM_raise (l : list A) (s0 : S) (e : exn) :
  foldM f s0 l = Raise e -> ∃ x s1, x ∈ l ∧ f s1 x = Raise e.
Proof.
  revert s0. induction l as [|x l IH]; intros s0 Hrun; simpl in Hrun; [done|].
  destruct (f s0 x) as [s1|e'] eqn:Hf; simpl in Hrun.
  - destruct (IH _ Hrun) as (y & s2 & Hy & Hfy). exists y, s2. set_solver.
  - simplify_eq. exists x, s0. set_solver.
Qed.

Lemma foldM_total (l : list A) (s0 : S) :
  (∀ x s1, x ∈ l -> ∃ s2, f s1 x = Ok s2) -> ∃ s, foldM f s0 l = Ok s.
Proof.
  intros Hall. destruct (foldM f s0 l) as [s|e] eqn:Hrun; [by eexists|].
  apply foldM_raise in Hrun as (x & s1 & Hx & Hf).
  destruct (Hall x s1 Hx) as [s2 Hs2]. congruence.
Qed.
End FoldM.

Lemma foldM_ext {A S : Type} (f g : S -> A -> result S) (s : S) (l : list A) :
  (∀ s1 x, f s1 x = g s1 x) -> foldM f s l = foldM g s l.
Proof.
  intros Hfg. revert s. induction l as [|x l IH]; intros s; simpl; [done|].
  rewrite Hfg. destruct (g s x); simpl; auto.
Qed.

(** Two nested loops over the same state are one loop over the flattened
    list. *)
Lemma foldM_flat_map {A B S : Type} (f : S -> B -> result S) (h : A -> list B)
    (s : S) (l : list A) :
  foldM (fun s1 x => foldM f s1 (h x)) s l = foldM f s (flat_map h l).
Proof.
  revert s. induction l as [|x l IH]; intros s; simpl; [done|].
  rewrite foldM_app. destruct (foldM f s (h x)); simpl; auto.
Qed.

(** ** Dictionaries *)

Section DictLemmas.
Context {V : Type}.
Implicit Types (d : Dict.t V) (k : string) (v : V).

Lemma get_Some_elem_of d k v : Dict.get d k = Some v -> (k, v) ∈ d.
Proof.
  induction d as [|[k' v'] d IH]; simpl; [done|].
  case_decide; intros ?; simplify_eq; set_solver.
Qed.

Lemma get_is_Some d k : is_Some (Dict.get d k) ↔ k ∈ Dict.keys d.
Proof.
  unfold Dict.keys. induction d as [|[k' v'] d IH]; simpl.
  - split; [by intros [? ?]|]. by intros ?%elem_of_nil.
  - case_decide; simplify_eq.
    + split; [set_solver| by eexists].
    + rewrite IH. set_solver.
Qed.

Lemma get_None d k : Dict.get d k = None ↔ k ∉ Dict.keys d.
Proof. rewrite <- get_is_Some, eq_None_not_Some. done. Qed.

Lemma elem_of_get d k v : Dict.wf d -> (k, v) ∈ d -> Dict.get d k = Some v.
Proof.
  unfold Dict.wf, Dict.keys.
  induction d as [|[k' v'] d IH]; simpl; intros Hwf Hin.
  - by apply elem_of_nil in Hin.
  - apply NoDup_cons in Hwf as [Hk' Hwf].
    apply elem_of_cons in Hin as [?|Hin]; simplify_eq.
    + by rewrite decide_True.
    + rewrite decide_False; [auto|]. intros ->. apply Hk'.
      apply list_elem_of_fmap. by exists (k, v).
Qed.

Lemma keys_set d k v :
  Dict.keys (Dict.set d k v) =
    if decide (k ∈ Dict.keys d) then Dict.keys d else Dict.keys d ++ [k].
Proof.
  unfold Dict.keys. induction d as [|[k' v'] d IH]; simpl.
  - done.
  - destruct (decide (k' = k)); simplify_eq; csimpl.
    + clear IH. rewrite decide_True; [done|]. apply elem_of_cons. by left.
    + rewrite IH. clear IH. destruct (decide (k ∈ d.*1)) as [Hd|Hd].
      * rewrite decide_True; [done|]. apply elem_of_cons. by right.
      * rewrite decide_False; [done|].
        intros [?|?]%elem_of_cons; by simplify_eq.
Qed.

Lemma wf_set d k v : Dict.wf d -> Dict.wf (Dict.set d k v).
Proof.
  unfold Dict.wf. rewrite keys_set. case_decide; [done|].
  intros Hwf. apply NoDup_app. split_and!; [done| |apply NoDup_singleton].
  intros x Hx ?%list_elem_of_singleton. by simplify_eq.
Qed.

Lemma get_set d k k' v :
  Dict.get (Dict.set d k v) k' = if decide (k = k') then Some v else Dict.get d k'.
Proof.
  induction d as [|[k1 v1] d IH]; simpl.
  - done.
  - destruct (decide (k1 = k)); simplify_eq; simpl.
    + destruct (decide (k = k')); done.
    + rewrite IH. destruct (decide (k1 = k')); simplify_eq.
      * by rewrite decide_False.
      * done.
Qed.

(** The pairs of a dictionary after an assignment. *)
Lemma elem_of_set d k v k' v' :
  Dict.wf d ->
  (k', v') ∈ Dict.set d k v ↔ (k' = k ∧ v' = v) ∨ (k' ≠ k ∧ (k', v') ∈ d).
Proof.
  intros Hwf. split.
  - intros Hin. pose proof (elem_of_get _ _ _ (wf_set d k v Hwf) Hin) as Hget.
    rewrite get_set in Hget. case_decide; simplify_eq; [by left|].
    right. split; [done|]. by apply get_Some_elem_of.
  - intros [[-> ->]|[Hne Hin]]; apply get_Some_elem_of; rewrite get_set.
    + by rewrite decide_True.
    + rewrite decide_False; [|done]. by apply elem_of_get.
Qed.
End DictLemmas.

(** ** The sort of the candidates *)

Lemma head_insert_by_len {A : Type} (x : list A) (l : list (list A)) :
  head (insert_by_len x l) =
    Some (match head l with
          | Some y => if decide (length x ≤ length y) then x else y
          | None => x
          end).
Proof. destruct l as [|y l]; simpl; [done|]. by case_decide. Qed.

(** The first element after sorting is a shortest candidate. *)
Lemma head_sort_by_len {A : Type} (l : list (list A)) :
  match head (sort_by_len l) with
  | None => l = []
  | Some c => c ∈ l ∧ ∀ c', c' ∈ l -> length c ≤ length c'
  end.
Proof.
  induction l as [|x l IH]; simpl; [done|].
  rewrite head_insert_by_len.
  destruct (head (sort_by_len l)) as [y|].
  - destruct IH as [Hy Hmin]. case_decide as Hxy.
    + split; [by apply elem_of_cons; left|].
      intros c' [->|Hc']%elem_of_cons; [done|]. specialize (Hmin c' Hc'). lia.
    + split; [by apply elem_of_cons; right|].
      intros c' [->|Hc']%elem_of_cons; [lia|]. by apply Hmin.
  - subst l. split; [by apply elem_of_cons; left|].
    by intros c' [->|?%elem_of_nil]%elem_of_cons.
Qed.

(** ** The shape of one call of find_joins *)

Lemma bind_Ok_r {A : Type} (r : result A) : (a <- r ;; Ok a) = r.
Proof. by destruct r. Qed.

Lemma find_joins_S (limit : nat) (table root : string) (graph : Graph)
    (path : option (list Hop)) :
  find_joins (S limit) table root graph path =
    if decide (table = root) then Ok path
    else
      match Dict.get graph table with
      | None => Raise (KeyError table)
      | Some info =>
          candidates <-
            foldM (collect limit root graph (default [] path)) []
              (nn_hops table (fks info)) ;;
          Ok (head (sort_by_len candidates))
      end.
Proof.
  simpl. case_decide; [done|]. destruct (Dict.get graph table) as [info|]; [|done].
  f_equal. unfold nn_hops. rewrite <- foldM_flat_map.
  apply foldM_ext. intros cands [parent columns].
  case_decide; [done|]. rewrite <- foldM_flat_map.
  apply foldM_ext. intros cands' [[from_col to_col] nullable].
  destruct nullable; simpl; [done|].
  unfold collect, hop_table. simpl. rewrite bind_Ok_r. done.
Qed.

Lemma elem_of_nn_hops (g : Graph) (t : string) (info : TableInfo) (hop : Hop) :
  Dict.get g t = Some info ->
  hop ∈ nn_hops t (fks info) ↔ nn_edge g t hop.
Proof.
  intros Hget. unfold nn_hops, nn_edge, hop_table.
  rewrite list_elem_of_In, in_flat_map. split.
  - intros ([parent columns] & Hin & Hhop). case_decide; [done|].
    apply in_flat_map in Hhop as ([[from_col to_col] nullable] & Hcol & Hhop).
    destruct nullable; simpl in Hhop; [done|]. destruct Hhop as [<-|[]]. simpl.
    split; [done|]. exists info, columns. by rewrite !list_elem_of_In.
  - intros (Hne & info' & columns & Hget' & Hin & Hcol). simplify_eq.
    destruct hop as [[parent from_col] to_col]. simpl in *.
    exists (parent, columns). rewrite <- list_elem_of_In. split; [done|].
    rewrite decide_False by done. apply in_flat_map.
    exists (from_col, to_col, false). rewrite <- list_elem_of_In.
    split; [done|]. by left.
Qed.

(** ** Join paths *)

Lemma chain_end_cons (t : string) (hop : Hop) (hops : list Hop) :
  chain_end t (hop :: hops) = chain_end (hop_table hop) hops.
Proof.
  unfold chain_end. destruct hops as [|hop' hops]; [done|].
  rewrite !fmap_cons, last_cons_cons, last_cons. by destruct (last _).
Qed.

Lemma join_chain_cons (g : Graph) (t root : string) (hop : Hop)
    (rest : list Hop) :
  join_chain g t root (hop :: rest) ↔
    nn_edge g t hop ∧
    ((rest = [] ∧ hop_table hop = root) ∨ join_chain g (hop_table hop) root rest).
Proof.
  unfold join_chain. rewrite chain_end_cons. simpl. split.
  - intros (_ & [Hedge Hchain] & Hend). split; [done|].
    destruct rest as [|hop' rest]; [by left|]. by right.
  - intros [Hedge [[-> Hroot]|(Hne & Hchain & Hend)]]; by split_and!.
Qed.

Lemma join_chain_nil (g : Graph) (t root : string) : ¬ join_chain g t root [].
Proof. by intros [? _]. Qed.

(** What a call that returns has computed. *)
Lemma find_joins_correct (g : Graph) (root : string) (limit : nat) :
  ∀ (t : string) (path res : option (list Hop)),
    find_joins limit t root g path = Ok res ->
    if decide (t = root) then res = path
    else
      match res with
      | None => ∀ hops, ¬ join_chain g t root hops
      | Some full =>
          ∃ hops, full = default [] path ++ hops ∧ shortest g t root hops
      end.
Proof.
  induction limit as [|limit IH]; intros t path res Hrun; [done|].
  rewrite find_joins_S in Hrun. case_decide as Ht; [by simplify_eq|].
  destruct (Dict.get g t) as [info|] eqn:Hget; [|done].
  set (P := default [] path) in *.
  destruct (foldM _ _ _) as [cands|] eqn:Hfold; simpl in Hrun; [|done].
  simplify_eq.
  pose (Inv := fun (visited : list Hop) (cs : list (list Hop)) =>
    (∀ c, c ∈ cs -> ∃ hops, c = P ++ hops ∧ join_chain g t root hops) ∧
    (∀ hop rest, hop ∈ visited -> join_chain g t root (hop :: rest) ->
       ∃ c, c ∈ cs ∧ length c ≤ length P + S (length rest))).
  assert (HInv : Inv (nn_hops t (fks info)) cands).
  { eapply (foldM_inv _ Inv); [| |exact Hfold].
    - split; [by intros c ?%elem_of_nil|by intros hop rest ?%elem_of_nil].
    - intros visited hop cs cs' Hhop [Hgood Hcov] Hstep.
      apply (elem_of_nn_hops g t info hop Hget) in Hhop as Hedge.
      unfold collect in Hstep.
      destruct (find_joins limit _ _ _ _) as [found|] eqn:Hrec; [|done].
      simpl in Hstep. apply IH in Hrec. simpl in Hrec.
      (* the candidate this hop contributes, if any *)
      assert (Hcase :
        (cs' = cs ∧ ∀ rest, ¬ join_chain g t root (hop :: rest)) ∨
        (∃ hops, cs' = cs ++ [P ++ hop :: hops] ∧
                 join_chain g t root (hop :: hops) ∧
                 ∀ rest, join_chain g t root (hop :: rest) ->
                         length hops ≤ length rest)).
      { case_decide as Hroot.
        - subst found. right. exists [].
          destruct (P ++ [hop]) as [|h hs] eqn:HP;
            [by apply app_nil in HP as [_ ?]|].
          simplify_eq. split_and!; [done| |simpl; lia].
          apply join_chain_cons. split; [done|]. by left.
        - destruct found as [full|].
          + destruct Hrec as (hops & -> & Hch & Hmin). right. exists hops.
            rewrite <- app_assoc in Hstep. simpl in Hstep.
            destruct (P ++ hop :: hops) as [|h hs] eqn:HP;
              [by apply app_nil in HP as [_ ?]|].
            simplify_eq. split_and!; [done| |].
            * apply join_chain_cons. split; [done|]. by right.
            * intros rest [_ [[_ ?]|Hrest]]%join_chain_cons; [done|].
              by apply Hmin.
          + simplify_eq. left. split; [done|].
            intros rest [_ [[_ ?]|Hrest]]%join_chain_cons; [done|].
            by apply Hrec in Hrest. }
      destruct Hcase as [[-> Hnone]|(hops & -> & Hch & Hmin)]; split.
      + done.
      + intros hop' rest [Hin| ->%list_elem_of_singleton]%elem_of_app Hrest;
          [by eapply Hcov|]. by apply Hnone in Hrest.
      + intros c [Hc| ->%list_elem_of_singleton]%elem_of_app; [by apply Hgood|].
        by exists (hop :: hops).
      + intros hop' rest [Hin| ->%list_elem_of_singleton]%elem_of_app Hrest.
        * destruct (Hcov hop' rest Hin Hrest) as (c & Hc & Hlen).
          exists c. split; [|done]. apply elem_of_app. by left.
        * exists (P ++ hop :: hops). split; [apply elem_of_app; right; by left|].
          rewrite length_app. simpl. specialize (Hmin rest Hrest). lia. }
  destruct HInv as [Hgood Hcov].
  pose proof (head_sort_by_len cands) as Hhead.
  destruct (head (sort_by_len cands)) as [c|].
  - destruct Hhead as [Hc Hmin]. destruct (Hgood c Hc) as (hops & -> & Hch).
    exists hops. split; [done|]. split; [done|].
    intros hops' Hch'. destruct hops' as [|hop rest]; [by destruct Hch'|].
    destruct (Hcov hop rest) as (c' & Hc' & Hlen); [|done|].
    + apply (elem_of_nn_hops g t info hop Hget).
      by apply join_chain_cons in Hch' as [? _].
    + specialize (Hmin c' Hc'). rewrite length_app in Hmin. simpl. lia.
  - subst cands. intros hops Hch. destruct hops as [|hop rest]; [by destruct Hch|].
    destruct (Hcov hop rest) as (c' & Hc' & _); [|done|by apply elem_of_nil in Hc'].
    apply (elem_of_nn_hops g t info hop Hget).
    by apply join_chain_cons in Hch as [? _].
Qed.

(** ** The exceptions of find_joins *)

Lemma nn_edge_step (g : Graph) (t : string) (hop : Hop) :
  nn_edge g t hop -> nn_step g t (hop_table hop).
Proof. destruct hop as [[p f] c]. intros H. by exists f, c. Qed.

(** [find_joins] raises nothing but a [RecursionError], or the [KeyError]
    of a table it reached that is not in the graph. *)
Lemma find_joins_raise (g : Graph) (root : string) (limit : nat) :
  ∀ (t : string) (path : option (list Hop)) (e : exn),
    find_joins limit t root g path = Raise e ->
    e = RecursionError ∨
    ∃ k, e = KeyError k ∧ rtc (nn_step g) t k ∧ Dict.get g k = None ∧ k ≠ root.
Proof.
  induction limit as [|limit IH]; intros t path e Hrun.
  { left. simpl in Hrun. congruence. }
  rewrite find_joins_S in Hrun. case_decide as Ht; [done|].
  destruct (Dict.get g t) as [info|] eqn:Hget.
  - destruct (foldM _ _ _) as [cands|e'] eqn:Hfold; simpl in Hrun; [done|].
    simplify_eq.
    apply foldM_raise in Hfold as (hop & cs & Hhop & Hstep).
    apply (elem_of_nn_hops g t info hop Hget), nn_edge_step in Hhop.
    unfold collect in Hstep.
    destruct (find_joins limit _ _ _ _) as [found|e'] eqn:Hrec; simpl in Hstep.
    { by destruct found as [[|? ?]|]. }
    simplify_eq. apply IH in Hrec as [->|(k & -> & Hreach & Hk)]; [by left|].
    right. exists k. split_and!; [done| |apply Hk..]. by eapply rtc_l.
  - simplify_eq. right. exists t. by split_and!.
Qed.

Lemma size_keyset_le {V : Type} (d : Dict.t V) : size (keyset d) ≤ length d.
Proof.
  unfold keyset, Dict.keys. induction d as [|[k v] d IH].
  - change (size (∅ : gset string) ≤ 0). by rewrite size_empty.
  - change (size ({[k]} ∪ list_to_set d.*1 : gset string) ≤ S (length d)).
    rewrite size_union_alt, size_singleton.
    assert (Hle : size (list_to_set d.*1 ∖ {[k]} : gset string)
                  ≤ size (list_to_set d.*1 : gset string))
      by (apply subseteq_size; set_solver).
    lia.
Qed.

Lemma elem_of_keyset {V : Type} (d : Dict.t V) (k : string) :
  k ∈ keyset d ↔ is_Some (Dict.get d k).
Proof. unfold keyset. by rewrite elem_of_list_to_set, get_is_Some. Qed.

(** On an acyclic graph the tables on the call stack are distinct tables of
    the graph, so the stack is never deeper than the graph is large. *)
Lemma find_joins_depth (g : Graph) (root : string) :
  acyclic (nn_step g) ->
  ∀ (limit : nat) (t : string) (path : option (list Hop)) (stack : gset string),
    stack ⊆ keyset g ->
    (∀ a, a ∈ stack -> tc (nn_step g) a t) ->
    size (keyset g) < limit + size stack ->
    find_joins limit t root g path ≠ Raise RecursionError.
Proof.
  intros Hacyc. induction limit as [|limit IH]; intros t path stack Hsub Hanc Hsize.
  { apply subseteq_size in Hsub. lia. }
  rewrite find_joins_S. case_decide as Ht; [done|].
  destruct (Dict.get g t) as [info|] eqn:Hget; [|done].
  destruct (foldM _ _ _) as [cands|e] eqn:Hfold; simpl; [done|].
  intros ?. simplify_eq.
  apply foldM_raise in Hfold as (hop & cs & Hhop & Hstep).
  apply (elem_of_nn_hops g t info hop Hget), nn_edge_step in Hhop.
  unfold collect in Hstep.
  destruct (find_joins limit _ _ _ _) as [found|e] eqn:Hrec; simpl in Hstep.
  { by destruct found as [[|? ?]|]. }
  simplify_eq. revert Hrec.
  assert (Hfresh : t ∉ stack).
  { intros Hin. by apply (Hacyc t), Hanc. }
  apply (IH _ _ ({[t]} ∪ stack)).
  - apply union_subseteq. split; [|done].
    apply singleton_subseteq_l, elem_of_keyset. by eexists.
  - intros a [->%elem_of_singleton|Ha]%elem_of_union.
    + by apply tc_once.
    + eapply tc_r; [by apply Hanc|done].
  - rewrite size_union, size_singleton by set_solver. lia.
Qed.

(** ** Acyclic and closed graphs *)

Lemma acyclic_rank (R : relation string) (rank : string -> nat) :
  (∀ x y, R x y -> rank y < rank x) -> acyclic R.
Proof.
  intros Hrank t Ht.
  assert (Hlt : ∀ x y, tc R x y -> rank y < rank x).
  { induction 1 as [x y Hxy|x y z Hxy _ IH]; [by apply Hrank|].
    apply Hrank in Hxy. lia. }
  apply Hlt in Ht. lia.
Qed.

Lemma acyclic_sub (R R' : relation string) :
  (∀ x y, R x y -> R' x y) -> acyclic R' -> acyclic R.
Proof.
  intros Hsub Hacyc t Ht. apply (Hacyc t).
  assert (Hgen : ∀ x y, tc R x y -> tc R' x y); [|by apply Hgen].
  induction 1 as [x y Hxy|x y z Hxy _ IH]; [by apply tc_once, Hsub|].
  eapply tc_l; [by apply Hsub|done].
Qed.

Lemma nn_step_fk_step (g : Graph) (t p : string) : nn_step g t p -> fk_step g t p.
Proof.
  intros (f & c & Hne & info & columns & Hget & Hin & _). unfold hop_table in *.
  simpl in *. split; [done|]. exists info. split; [done|].
  apply list_elem_of_fmap. by exists (p, columns).
Qed.

Lemma fk_closed_nn_closed (g : Graph) (root : string) :
  fk_closed g -> nn_closed g root.
Proof. intros Hc t p Hstep. right. eapply Hc, nn_step_fk_step, Hstep. Qed.

Lemma elem_of_fk_targets (g : Graph) (t p : string) :
  p ∈ fk_targets g t ↔ fk_step g t p.
Proof.
  unfold fk_targets, fk_step. destruct (Dict.get g t) as [info|].
  - rewrite list_elem_of_filter. split.
    + intros [? ?]. split; [done|]. by exists info.
    + intros [? (info' & ? & ?)]. by simplify_eq.
  - split; [by intros ?%elem_of_nil|]. by intros [_ (? & ? & _)].
Qed.

Lemma ranked_fk_step (rank : string -> nat) (g : Graph) :
  ranked rank g = true -> ∀ t p, fk_step g t p -> rank p < rank t.
Proof.
  unfold ranked. rewrite forallb_forall. intros Hall t p (Hne & info & Hget & Hp).
  apply get_Some_elem_of, list_elem_of_In, Hall in Hget.
  rewrite forallb_forall in Hget. apply list_elem_of_In, Hget in Hp.
  apply orb_true_iff in Hp as [Hp|Hp]; apply bool_decide_eq_true in Hp; done.
Qed.

Lemma ranked_acyclic (rank : string -> nat) (g : Graph) :
  ranked rank g = true -> acyclic (fk_step g).
Proof. intros H. by apply (acyclic_rank _ rank), ranked_fk_step. Qed.

Lemma closedb_fk_closed (g : Graph) : closedb g = true -> fk_closed g.
Proof.
  unfold closedb. rewrite forallb_forall. intros Hall t p (Hne & info & Hget & Hp).
  apply get_Some_elem_of, list_elem_of_In, Hall in Hget.
  rewrite forallb_forall in Hget. apply list_elem_of_In, Hget in Hp.
  apply bool_decide_eq_true in Hp. by apply get_is_Some.
Qed.

Lemma has_pkb_has_pk (g : Graph) : has_pkb g = true -> has_pk g.
Proof.
  unfold has_pkb. rewrite forallb_forall. intros Hall t info Hin.
  apply list_elem_of_In, Hall in Hin. apply negb_true_iff in Hin.
  by apply bool_decide_eq_false in Hin.
Qed.

Lemma join_chain_tc (g : Graph) (root : string) (hops : list Hop) :
  ∀ t, join_chain g t root hops -> tc (nn_step g) t root.
Proof.
  induction hops as [|hop rest IH]; intros t Hch; [by destruct Hch|].
  apply join_chain_cons in Hch as [Hedge%nn_edge_step [[_ <-]|Hrest]].
  - by apply tc_once.
  - eapply tc_l; [done|]. by apply IH.
Qed.

(** On an acyclic graph whose followed foreign keys all lead to tables of
    the graph, a call on a table of the graph returns. *)
Lemma find_joins_returns (g : Graph) (root t : string) (limit : nat)
    (path : option (list Hop)) :
  acyclic (nn_step g) -> nn_closed g root -> length g < limit ->
  t = root ∨ is_Some (Dict.get g t) ->
  ∃ res, find_joins limit t root g path = Ok res.
Proof.
  intros Hacyc Hclosed Hlimit Ht.
  destruct (find_joins limit t root g path) as [res|e] eqn:Hrun; [by eexists|].
  exfalso.
  destruct (find_joins_raise _ _ _ _ _ _ Hrun) as [->|(k & -> & Hreach & Hk & Hroot)].
  - revert Hrun. apply (find_joins_depth g root Hacyc limit t path ∅).
    + set_solver.
    + set_solver.
    + rewrite size_empty. pose proof (size_keyset_le g). lia.
  - assert (is_Some (Dict.get g k)) as [? ?]; [|congruence].
    apply rtc_inv_r in Hreach as [<-|(y & _ & Hstep)].
    + by destruct Ht.
    + by destruct (Hclosed y k Hstep).
Qed.

(** * find_joins: shortest join paths (C1) and termination (C2) *)

Lemma dangling_built :
  build_graph Examples.dangling_tables Examples.dangling_fkeys None
    = Ok Examples.dangling.
Proof. reflexivity. Qed.

Lemma dangling_acyclic : acyclic (fk_step Examples.dangling).
Proof.
  apply (ranked_acyclic (fun t => if decide (t = "t") then 1 else 0)).
  reflexivity.
Qed.

Lemma diamond_acyclic : acyclic (fk_step Examples.diamond).
Proof. apply (ranked_acyclic Examples.diamond_rank). reflexivity. Qed.

(** C1, amended: on a graph whose followed foreign keys (not nullable, not
    self-referencing) are acyclic and all lead to tables of the graph or to
    the root, and with room for one nested call per table, [find_joins]
    returns a join path from [T] to [R] with the fewest hops whenever a join
    path exists. *)
Theorem find_joins_shortest_path (g : Graph) (T R : string) (limit : nat) :
  acyclic (nn_step g) ->
  nn_closed g R ->
  length g < limit ->
  (∃ hops, join_chain g T R hops) ->
  ∃ hops, find_joins limit T R g None = Ok (Some hops) ∧ shortest g T R hops.
Proof.
  intros Hacyc Hclosed Hlimit [hops0 Hch0].
  assert (HT : is_Some (Dict.get g T)).
  { destruct hops0 as [|hop rest]; [by destruct Hch0|].
    apply join_chain_cons in Hch0 as [(_ & info & _ & Hget & _) _]. by eexists. }
  assert (Hne : T ≠ R).
  { intros ->. by apply (Hacyc R), (join_chain_tc g R hops0). }
  destruct (find_joins_returns g R T limit None) as [res Hrun]; [done..|by right|].
  pose proof (find_joins_correct g R limit T None res Hrun) as Hres.
  rewrite decide_False in Hres by done. destruct res as [full|].
  - destruct Hres as (hops & -> & Hshort). by exists hops.
  - by apply Hres in Hch0.
Qed.

Lemma find_joins_shortest_path_witness :
  ∃ hops, find_joins 5 "c" "r" Examples.diamond None = Ok (Some hops)
          ∧ shortest Examples.diamond "c" "r" hops.
Proof.
  apply (find_joins_shortest_path Examples.diamond "c" "r" 5).
  - apply (acyclic_sub _ _ (nn_step_fk_step _)), diamond_acyclic.
  - apply fk_closed_nn_closed, closedb_fk_closed. reflexivity.
  - simpl. lia.
  - exists [("r", "r_id", "id")]. split; [done|]. split; [|reflexivity].
    split; [|done]. split; [done|]. eexists _, _. split; [reflexivity|].
    split; [|by left]. apply elem_of_cons. right. by left.
Defined.

(** C1 as stated fails: the graph built from a catalog in which [t]
    references [r] and a table [v] without primary key is acyclic and has
    the join path [t -> r], but no call returns it: the search looks [v] up
    in the graph and raises. *)
Lemma find_joins_missing_table_counterexample :
  build_graph Examples.dangling_tables Examples.dangling_fkeys None
    = Ok Examples.dangling ∧
  acyclic (nn_step Examples.dangling) ∧
  join_chain Examples.dangling "t" "r" [("r", "r_id", "id")] ∧
  find_joins 1000 "t" "r" Examples.dangling None = Raise (KeyError "v") ∧
  ∀ limit hops, find_joins limit "t" "r" Examples.dangling None ≠ Ok (Some hops).
Proof.
  split; [reflexivity|]. split.
  { apply (acyclic_sub _ _ (nn_step_fk_step _)), dangling_acyclic. }
  split.
  { split; [done|]. split; [|reflexivity]. split; [|done]. split; [done|].
    eexists _, _. split; [reflexivity|]. split; by left. }
  split; [reflexivity|].
  intros [|[|limit]] hops; [done..|].
  rewrite find_joins_S. simpl. done.
Qed.

(** C2, amended: on a graph whose followed foreign keys are acyclic,
    [find_joins] stays within a recursion depth of one call per table; and
    when moreover they all lead to tables of the graph or to the root, a
    table of the graph (or the root itself) without join path to the root
    gets the result [None]. *)
Theorem find_joins_terminates_acyclic (g : Graph) (t root : string)
    (limit : nat) :
  acyclic (nn_step g) ->
  length g < limit ->
  find_joins limit t root g None ≠ Raise RecursionError ∧
  (nn_closed g root ->
   t = root ∨ is_Some (Dict.get g t) ->
   (∀ hops, ¬ join_chain g t root hops) ->
   find_joins limit t root g None = Ok None).
Proof.
  intros Hacyc Hlimit. split.
  - apply (find_joins_depth g root Hacyc limit t None ∅).
    + set_solver.
    + set_solver.
    + rewrite size_empty. pose proof (size_keyset_le g). lia.
  - intros Hclosed Ht Hnone.
    destruct (find_joins_returns g root t limit None) as [res Hrun]; [done..|].
    pose proof (find_joins_correct g root limit t None res Hrun) as Hres.
    case_decide; [by subst res|]. destruct res as [full|]; [|done].
    destruct Hres as (hops & _ & Hch & _). by apply Hnone in Hch.
Qed.

Lemma find_joins_terminates_acyclic_witness :
  find_joins 5 "d" "r" Examples.diamond None ≠ Raise RecursionError ∧
  (nn_closed Examples.diamond "r" ->
   "d" = "r" ∨ is_Some (Dict.get Examples.diamond "d") ->
   (∀ hops, ¬ join_chain Examples.diamond "d" "r" hops) ->
   find_joins 5 "d" "r" Examples.diamond None = Ok None).
Proof.
  apply (find_joins_terminates_acyclic Examples.diamond "d" "r" 5).
  - apply (acyclic_sub _ _ (nn_step_fk_step _)), diamond_acyclic.
  - simpl. lia.
Defined.

Lemma cyclic_overflow (limit : nat) :
  ∀ path,
    find_joins limit "a" "r" Examples.cyclic path = Raise RecursionError ∧
    find_joins limit "b" "r" Examples.cyclic path = Raise RecursionError.
Proof.
  induction limit as [|limit IH]; intros path; [done|].
  rewrite !find_joins_S. simpl. unfold collect, hop_table. simpl.
  by rewrite (proj2 (IH _)), (proj1 (IH _)).
Qed.

Lemma cyclic_no_chain (hops : list Hop) :
  ∀ t, t = "a" ∨ t = "b" -> chain Examples.cyclic t hops ->
       chain_end t hops = "a" ∨ chain_end t hops = "b".
Proof.
  induction hops as [|hop rest IH]; intros t Ht Hch; [done|].
  rewrite chain_end_cons. destruct Hch as [Hedge Hch]. apply IH; [|done].
  destruct Hedge as (_ & info & columns & Hget & Hin & _).
  destruct Ht as [-> | ->]; simpl in Hget; simplify_eq; simpl in Hin;
    apply list_elem_of_singleton in Hin; simplify_eq; auto.
Qed.

(** C2 as stated fails: [a] and [b] reference each other through
    non-nullable columns and neither reaches the root [r].  [a] has no join
    path to [r], yet the search does not return [None]: it has no record of
    the tables it is visiting, follows the cycle and exhausts any recursion
    limit. *)
Lemma find_joins_cycle_counterexample :
  tc (nn_step Examples.cyclic) "a" "a" ∧
  (∀ hops, ¬ join_chain Examples.cyclic "a" "r" hops) ∧
  ∀ limit, find_joins limit "a" "r" Examples.cyclic None = Raise RecursionError.
Proof.
  split; [|split].
  - apply (tc_l _ _ "b"); [|apply tc_once].
    + exists "b_id", "id". split; [done|]. eexists _, _.
      split; [reflexivity|]. split; by left.
    + exists "a_id", "id". split; [done|]. eexists _, _.
      split; [reflexivity|]. split; by left.
  - intros hops (_ & Hch & Hend).
    destruct (cyclic_no_chain hops "a") as [H|H]; [by left|done|..]; congruence.
  - intros limit. apply cyclic_overflow.
Qed.

(** * build_graph (C5, C10) *)

Section FoldMInv.
Context {A S : Type} (f : S -> A -> result S) (I : S -> Prop).

Lemma foldM_total_inv (l : list A) (s0 : S) :
  I s0 ->
  (∀ x s1, x ∈ l -> I s1 -> ∃ s2, f s1 x = Ok s2 ∧ I s2) ->
  ∃ s, foldM f s0 l = Ok s ∧ I s.
Proof.
  revert s0. induction l as [|x l IH]; intros s0 H0 Hstep; simpl.
  - by exists s0.
  - destruct (Hstep x s0) as (s1 & -> & H1); [by left|done|]. simpl.
    apply IH; [done|]. intros y s Hy. apply Hstep. by right.
Qed.

Lemma foldM_raise_inv (l : list A) (s0 : S) (e : exn) :
  I s0 ->
  (∀ x s1 s2, x ∈ l -> I s1 -> f s1 x = Ok s2 -> I s2) ->
  foldM f s0 l = Raise e ->
  ∃ x s1, x ∈ l ∧ I s1 ∧ f s1 x = Raise e.
Proof.
  revert s0. induction l as [|x l IH]; intros s0 H0 Hstep Hrun;
    simpl in Hrun; [done|].
  destruct (f s0 x) as [s1|e'] eqn:Hf; simpl in Hrun.
  - destruct (IH s1) as (y & s2 & Hy & H2 & Hfy); [| |done|].
    + eapply Hstep; [by left|done..].
    + intros y s2 s3 Hy. apply Hstep. by right.
    + exists y, s2. split; [by right|done].
  - simplify_eq. exists x, s0. split; [by left|done].
Qed.
End FoldMInv.

(** The first pass: one node per table row that is not excluded. *)
Lemma add_tables_spec (skip : option (list string)) (rows : list TableRow) :
  ∀ g : Graph,
    Dict.wf g ->
    (∀ t info, Dict.get g t = Some info -> fks info = []) ->
    let g' := fold_left (add_table skip) rows g in
    Dict.wf g' ∧
    (∀ t info, Dict.get g' t = Some info -> fks info = []) ∧
    (∀ t, t ∈ Dict.keys g' ↔ t ∈ Dict.keys g ∨ t ∈ kept_tables skip rows).
Proof.
  unfold kept_tables.
  induction rows as [|row rows IH]; intros g Hwf Hempty; cbn [fold_left].
  - split_and!; [done..|]. intros t. rewrite fmap_nil, filter_nil, elem_of_nil. tauto.
  - destruct (IH (add_table skip g row)) as (Hwf' & Hempty' & Hkeys).
    + unfold add_table. destruct (skipped _ _); [done|]. by apply wf_set.
    + unfold add_table. destruct (skipped _ _); [done|].
      intros t info. rewrite get_set. case_decide; [|by apply Hempty].
      intros ?. by simplify_eq.
    + split_and!; [done..|]. intros t. rewrite Hkeys. clear IH Hkeys.
      rewrite fmap_cons, !list_elem_of_filter, elem_of_cons. unfold add_table.
      destruct (skipped skip (table_name row)) eqn:Hskip.
      * split; [tauto|]. intros [?|[? [->|?]]]; [tauto|congruence|tauto].
      * rewrite keys_set. case_decide as Hin.
        -- split; [tauto|]. intros [?|[? [->|?]]]; tauto.
        -- rewrite elem_of_app, list_elem_of_singleton.
           split; [|tauto]. intros [[?| ->]|?]; tauto.
Qed.

Lemma add_fk_skipped (skip : option (list string)) (g : Graph) (row : FkRow) :
  ¬ kept skip row -> add_fk skip g row = Ok g.
Proof.
  unfold kept, add_fk. intros Hnot.
  destruct (skipped skip (fk_table_name row)), (skipped skip (foreign_table_name row));
    simpl; try done.
  by destruct Hnot.
Qed.

Lemma add_fk_kept (skip : option (list string)) (g : Graph) (row : FkRow) :
  kept skip row ->
  add_fk skip g row =
    match Dict.get g (fk_table_name row) with
    | None => Raise (KeyError (fk_table_name row))
    | Some info =>
        Ok (Dict.set g (fk_table_name row)
              {| pks := pks info;
                 fks := Dict.set (fks info) (foreign_table_name row)
                          (default [] (Dict.get (fks info) (foreign_table_name row))
                             ++ [edge_of row]) |})
    end.
Proof. unfold kept, add_fk. by intros [-> ->]. Qed.

Lemma kept_dec (skip : option (list string)) (row : FkRow) :
  kept skip row ∨ ¬ kept skip row.
Proof.
  unfold kept.
  destruct (skipped skip (fk_table_name row)), (skipped skip (foreign_table_name row));
    (by left) || (right; by intros [? ?]).
Qed.

(** What one FK row does to the graph. *)
Lemma add_fk_spec (skip : option (list string)) (g g' : Graph) (row : FkRow) :
  add_fk skip g row = Ok g' ->
  Dict.keys g' = Dict.keys g ∧
  (∀ t info', Dict.get g' t = Some info' ->
     ∃ info, Dict.get g t = Some info ∧ pks info' = pks info) ∧
  (fks_wf g -> fks_wf g') ∧
  (∀ t p e, has_edge g' t p e ↔
     has_edge g t p e ∨
     (kept skip row ∧ t = fk_table_name row ∧ p = foreign_table_name row
      ∧ e = edge_of row)).
Proof.
  destruct (kept_dec skip row) as [Hkept|Hnot].
  2: { rewrite add_fk_skipped by done. intros ?. simplify_eq.
       split_and!; [done|by eauto|done|]. intros t p e. tauto. }
  rewrite add_fk_kept by done.
  destruct (Dict.get g (fk_table_name row)) as [info|] eqn:Hget; [|done].
  intros ?. simplify_eq. split_and!.
  - rewrite keys_set. rewrite decide_True; [done|]. apply get_is_Some. by eexists.
  - intros t info'. rewrite get_set. case_decide; [|by eauto].
    intros ?. simplify_eq. by exists info.
  - intros Hwf t info'. rewrite get_set. case_decide; [|by apply Hwf].
    intros ?. simplify_eq. simpl. apply wf_set. by eapply Hwf.
  - intros t p e. unfold has_edge. split.
    + intros (info' & columns & Hg & Hc & He). rewrite get_set in Hg.
      case_decide as Ht; simplify_eq.
      * simpl in Hc. rewrite get_set in Hc. case_decide as Hp; simplify_eq.
        -- apply elem_of_app in He as [He|He%list_elem_of_singleton].
           ++ left. destruct (Dict.get (fks info) (foreign_table_name row))
                as [cols|] eqn:Hcols; [|by apply elem_of_nil in He].
              by exists info, cols.
           ++ right. by subst e.
        -- left. by exists info, columns.
      * left. by exists info', columns.
    + intros [(info1 & columns & Hg & Hc & He)|(_ & -> & -> & ->)].
      * destruct (decide (fk_table_name row = t)) as [<-|Ht].
        -- simplify_eq. destruct (decide (foreign_table_name row = p)) as [<-|Hp].
           ++ eexists _, _. rewrite get_set, decide_True by done.
              split; [done|]. simpl. rewrite get_set, decide_True by done.
              split; [done|]. rewrite Hc. simpl. apply elem_of_app. by left.
           ++ eexists _, columns. rewrite get_set, decide_True by done.
              split; [done|]. simpl. by rewrite get_set, decide_False by done.
        -- exists info1, columns. by rewrite get_set, decide_False by done.
      * eexists _, _. rewrite get_set, decide_True by done.
        split; [done|]. simpl. rewrite get_set, decide_True by done.
        split; [done|]. apply elem_of_app. right. by left.
Qed.

(** The graph a successful run builds. *)
Lemma build_graph_spec (table_rows : list TableRow) (fk_rows : list FkRow)
    (skip : option (list string)) (g : Graph) :
  build_graph table_rows fk_rows skip = Ok g ->
  Dict.wf g ∧ fks_wf g ∧
  (∀ t, t ∈ Dict.keys g ↔ t ∈ kept_tables skip table_rows) ∧
  (∀ t p e, has_edge g t p e ↔ from_row skip fk_rows t p e).
Proof.
  unfold build_graph. intros Hrun.
  destruct (add_tables_spec skip table_rows []) as (Hwf0 & Hempty0 & Hkeys0).
  { apply NoDup_nil_2. }
  { done. }
  set (g0 := fold_left (add_table skip) table_rows []) in *.
  pose (Inv := fun (visited : list FkRow) (g1 : Graph) =>
    Dict.keys g1 = Dict.keys g0 ∧ fks_wf g1 ∧
    ∀ t p e, has_edge g1 t p e ↔ from_row skip visited t p e).
  assert (HInv : Inv fk_rows g).
  { eapply (foldM_inv _ Inv); [| |exact Hrun].
    - split_and!; [done| |].
      + intros t info Hget. rewrite (Hempty0 t info Hget). apply NoDup_nil_2.
      + intros t p e. split.
        * intros (info & columns & Hget & Hc & _).
          by rewrite (Hempty0 t info Hget) in Hc.
        * by intros (row & ?%elem_of_nil & _).
    - intros visited row g1 g2 _ (Hk & Hfw & Hedges) Hstep.
      apply add_fk_spec in Hstep as (Hk' & _ & Hfw' & Hedges').
      split_and!; [congruence|by apply Hfw'|].
      intros t p e. rewrite Hedges', Hedges. unfold from_row. split.
      + intros [(row' & Hin & H)|(Hkept & -> & -> & ->)].
        * exists row'. split; [|done]. apply elem_of_app. by left.
        * exists row. split; [|done]. apply elem_of_app. right. by left.
      + intros (row' & [Hin| ->%list_elem_of_singleton]%elem_of_app & H).
        * left. by exists row'.
        * right. by destruct H as (? & ? & ? & ?). }
  destruct HInv as (Hk & Hfw & Hedges). split_and!; [|done| |done].
  - unfold Dict.wf. by rewrite Hk.
  - intros t. rewrite Hk, Hkeys0. unfold Dict.keys. rewrite fmap_nil, elem_of_nil.
    tauto.
Qed.

(** A [KeyError] of [build_graph] is the lookup of the owning table of an
    FK row that passed the exclusion test. *)
Lemma build_graph_raise (table_rows : list TableRow) (fk_rows : list FkRow)
    (skip : option (list string)) (e : exn) :
  build_graph table_rows fk_rows skip = Raise e ->
  ∃ row, row ∈ fk_rows ∧ kept skip row
         ∧ (fk_table_name row ∉ kept_tables skip table_rows)
         ∧ e = KeyError (fk_table_name row).
Proof.
  unfold build_graph. intros Hrun.
  destruct (add_tables_spec skip table_rows []) as (_ & _ & Hkeys0).
  { apply NoDup_nil_2. }
  { done. }
  set (g0 := fold_left (add_table skip) table_rows []) in *.
  apply (foldM_raise_inv _ (fun g1 => Dict.keys g1 = Dict.keys g0)) in Hrun
    as (row & g1 & Hin & Hk & Hstep); [|done|].
  - exists row. destruct (kept_dec skip row) as [Hkept|Hnot].
    + rewrite add_fk_kept in Hstep by done.
      destruct (Dict.get g1 (fk_table_name row)) as [info|] eqn:Hget; [done|].
      simplify_eq. split_and!; [done..| |done].
      apply get_None in Hget. rewrite Hk, Hkeys0 in Hget.
      intros ?. apply Hget. by right.
    + by rewrite add_fk_skipped in Hstep.
  - intros row g1 g2 _ Hk Hstep. apply add_fk_spec in Hstep as [Hk' _]. congruence.
Qed.

Lemma build_graph_owner (table_rows : list TableRow) (fk_rows : list FkRow)
    (skip : option (list string)) (g : Graph) (row : FkRow) :
  build_graph table_rows fk_rows skip = Ok g ->
  row ∈ fk_rows -> kept skip row ->
  fk_table_name row ∈ kept_tables skip table_rows.
Proof.
  intros (_ & _ & Hkeys & Hedges)%build_graph_spec Hin Hkept.
  apply Hkeys, get_is_Some.
  destruct (proj2 (Hedges (fk_table_name row) (foreign_table_name row) (edge_of row)))
    as (info & _ & Hget & _); [by exists row|by eexists].
Qed.

(** C5, amended: [build_graph] stores the edge of every FK row neither of
    whose two tables is excluded, whether or not the referenced table is a
    node.  In the graph it returns, the nodes are the table rows that are
    not excluded, and the edges are exactly those of the FK rows that passed
    the exclusion test; so no excluded table and no edge touching an
    excluded table appears. *)
Theorem build_graph_edges (table_rows : list TableRow) (fk_rows : list FkRow)
    (skip : option (list string)) (g : Graph) :
  build_graph table_rows fk_rows skip = Ok g ->
  (∀ t, t ∈ Dict.keys g ↔
        skipped skip t = false ∧ t ∈ table_name <$> table_rows) ∧
  (∀ t info p columns e,
     Dict.get g t = Some info -> (p, columns) ∈ fks info -> e ∈ columns ->
     skipped skip t = false ∧ skipped skip p = false ∧
     ∃ row, row ∈ fk_rows ∧ fk_table_name row = t
            ∧ foreign_table_name row = p ∧ e = edge_of row) ∧
  (∀ row, row ∈ fk_rows ->
     skipped skip (fk_table_name row) = false ->
     skipped skip (foreign_table_name row) = false ->
     ∃ info columns,
       Dict.get g (fk_table_name row) = Some info ∧
       (foreign_table_name row, columns) ∈ fks info ∧
       edge_of row ∈ columns).
Proof.
  intros (Hwf & Hfw & Hkeys & Hedges)%build_graph_spec. split_and!.
  - intros t. rewrite Hkeys. unfold kept_tables. rewrite list_elem_of_filter. done.
  - intros t info p columns e Hget Hin He.
    destruct (proj1 (Hedges t p e)) as (row & Hrow & [Ht Hp] & <- & <- & ->).
    { exists info, columns. split; [done|]. split; [|done].
      apply elem_of_get; [by eapply Hfw|done]. }
    split_and!; [done..|]. by exists row.
  - intros row Hin Ht Hp.
    destruct (proj2 (Hedges (fk_table_name row) (foreign_table_name row) (edge_of row)))
      as (info & columns & Hget & Hc & He); [by exists row|].
    exists info, columns. split_and!; [done| |done]. by apply get_Some_elem_of.
Qed.

Lemma build_graph_edges_witness :
  ∃ info columns,
    Dict.get Examples.dangling "t" = Some info ∧
    ("r", columns) ∈ fks info ∧ ("r_id", "id", false) ∈ columns.
Proof.
  destruct (build_graph_edges Examples.dangling_tables Examples.dangling_fkeys
              None Examples.dangling dangling_built) as (_ & _ & Hrows).
  apply (Hrows {| constraint_name := "t_r_fk"; fk_table_name := "t";
                  column_name := "r_id"; foreign_table_name := "r";
                  foreign_column_name := "id"; nullable := false |});
    [by left|done..].
Defined.

(** C5 as stated fails: an FK row whose referenced table is absent from the
    table rows is not dropped.  The graph built keeps the edge from [t] to
    [v] although [v] is not a key of the graph. *)
Lemma build_graph_absent_target_counterexample :
  ∃ g, build_graph Examples.dangling_tables Examples.dangling_fkeys None = Ok g
       ∧ ("v" ∉ table_name <$> Examples.dangling_tables)
       ∧ has_edge g "t" "v" ("v_id", "code", false)
       ∧ "v" ∉ Dict.keys g.
Proof.
  exists Examples.dangling. split; [reflexivity|]. split; [|split].
  - by intros [?|[?|?%elem_of_nil]%elem_of_cons]%elem_of_cons.
  - eexists _, _. split; [reflexivity|]. split; [reflexivity|]. by left.
  - by intros [?|[?|?%elem_of_nil]%elem_of_cons]%elem_of_cons.
Qed.

(** C10, amended: an FK row neither of whose two tables is excluded, and
    whose owning table is not among the (non-excluded) table rows, makes
    [build_graph] raise the [KeyError] of such a row's owning table instead
    of dropping the row; the function returns a graph exactly when every FK
    row without excluded table is owned by a node of the graph. *)
Theorem build_graph_key_error (table_rows : list TableRow)
    (fk_rows : list FkRow) (skip : option (list string)) :
  (∀ row, row ∈ fk_rows -> kept skip row ->
          fk_table_name row ∉ kept_tables skip table_rows ->
          ∃ row', row' ∈ fk_rows ∧ kept skip row'
                  ∧ (fk_table_name row' ∉ kept_tables skip table_rows)
                  ∧ build_graph table_rows fk_rows skip
                      = Raise (KeyError (fk_table_name row'))) ∧
  ((∃ g, build_graph table_rows fk_rows skip = Ok g) ↔
   (∀ row, row ∈ fk_rows -> kept skip row ->
           fk_table_name row ∈ kept_tables skip table_rows)).
Proof.
  split.
  - intros row Hin Hkept Hout.
    destruct (build_graph table_rows fk_rows skip) as [g|e] eqn:Hrun.
    + by pose proof (build_graph_owner _ _ _ _ _ Hrun Hin Hkept).
    + apply build_graph_raise in Hrun as (row' & ? & ? & ? & ->). by exists row'.
  - split.
    + intros [g Hrun] row. by apply (build_graph_owner _ _ _ _ _ Hrun).
    + intros Hall.
      destruct (build_graph table_rows fk_rows skip) as [g|e] eqn:Hrun; [by eexists|].
      apply build_graph_raise in Hrun as (row' & Hin & Hkept & Hout & _).
      exfalso. by apply Hout, Hall.
Qed.

(** C10 as stated fails: the owning table [u] of the FK row is neither among
    the table rows nor excluded, but the referenced table [r] is excluded:
    the row is dropped before the lookup and a graph is returned. *)
Lemma build_graph_excluded_target_counterexample :
  Examples.orphan_fkey ∈ [Examples.orphan_fkey] ∧
  (fk_table_name Examples.orphan_fkey ∉ table_name <$> Examples.orphan_tables) ∧
  skipped (Some ["r"]) (fk_table_name Examples.orphan_fkey) = false ∧
  build_graph Examples.orphan_tables [Examples.orphan_fkey] (Some ["r"]) = Ok [].
Proof.
  split; [by left|]. split; [|split; reflexivity].
  by intros [?|?%elem_of_nil]%elem_of_cons.
Qed.

Lemma build_graph_key_error_witness :
  ∃ row', row' ∈ [Examples.orphan_fkey] ∧ kept None row'
          ∧ (fk_table_name row' ∉ kept_tables None Examples.orphan_tables)
          ∧ build_graph Examples.orphan_tables [Examples.orphan_fkey] None
              = Raise (KeyError (fk_table_name row')).
Proof.
  apply (proj1 (build_graph_key_error Examples.orphan_tables
                  [Examples.orphan_fkey] None) Examples.orphan_fkey).
  - by left.
  - done.
  - by intros [?|?%elem_of_nil]%elem_of_cons.
Defined.

(** * table_data (C3, C4, C6, C7) *)

Section Sequencer.
Context (limit : nat) (g : Graph) (root root_id : string).

(** A pass is a sequence of resolutions; when it fails, what was yielded
    is what the resolutions before the failure yielded. *)
Lemma scan_steps (items : list (string * TableInfo)) :
  ∀ st st' oe,
    (∀ item, item ∈ items -> item ∈ g) ->
    scan limit g root root_id items st = (st', oe) ->
    ∃ st1, rtc (resolves limit g root root_id) st st1 ∧ yielded st' = yielded st1
           ∧ (oe = None -> st' = st1).
Proof.
  induction items as [|[child info] items IH]; intros st st' oe Hsub Hrun;
    simpl in Hrun.
  { simplify_eq. by exists st'. }
  assert (Hsub' : ∀ item, item ∈ items -> item ∈ g).
  { intros item Hin. apply Hsub. by right. }
  case_bool_decide as Hseen; [by apply IH|].
  destruct (resolvable child info (seen st)) eqn:Hres; [|by apply IH].
  destruct (select_for limit g root root_id child info) as [select|e] eqn:Hsel.
  - apply IH in Hrun as (st1 & Hsteps & Hy & Hst); [|done].
    exists st1. split; [|done]. eapply rtc_l; [|done].
    apply (resolves_table _ _ _ _ st child info select); [|done..].
    apply Hsub. by left.
  - simplify_eq. exists st. by split.
Qed.

Lemma scan_mono (items : list (string * TableInfo)) :
  ∀ st st' oe, scan limit g root root_id items st = (st', oe) -> seen st ⊆ seen st'.
Proof.
  induction items as [|[child info] items IH]; intros st st' oe Hrun;
    simpl in Hrun.
  { by simplify_eq. }
  case_bool_decide as Hseen; [by eapply IH|].
  destruct (resolvable child info (seen st)) eqn:Hres; [|by eapply IH].
  destruct (select_for limit g root root_id child info) as [select|e] eqn:Hsel.
  - apply IH in Hrun. simpl in Hrun. set_solver.
  - simplify_eq. simpl. set_solver.
Qed.

Lemma scan_total (items : list (string * TableInfo)) :
  (∀ child info, (child, info) ∈ items ->
     ∃ select, select_for limit g root root_id child info = Ok select) ->
  ∀ st, ∃ st', scan limit g root root_id items st = (st', None).
Proof.
  induction items as [|[child info] items IH]; intros Hsel st; simpl.
  { by exists st. }
  assert (Hsel' : ∀ c i, (c, i) ∈ items ->
                    ∃ select, select_for limit g root root_id c i = Ok select).
  { intros c i Hin. apply Hsel. by right. }
  case_bool_decide; [by apply IH|].
  destruct (resolvable child info (seen st)); [|by apply IH].
  destruct (Hsel child info) as [select ->]; [by left|]. by apply IH.
Qed.

Lemma resolvable_mono (child : string) (info : TableInfo) (X Y : gset string) :
  X ⊆ Y -> resolvable child info X = true -> resolvable child info Y = true.
Proof.
  unfold resolvable. intros HXY HX%bool_decide_eq_true.
  apply bool_decide_eq_true. set_solver.
Qed.

(** A table that can be resolved when the pass starts has been resolved
    when a pass without exception ends. *)
Lemma scan_progress (items : list (string * TableInfo)) :
  ∀ st st' u info,
    (u, info) ∈ items ->
    resolvable u info (seen st) = true ->
    scan limit g root root_id items st = (st', None) ->
    u ∈ seen st'.
Proof.
  induction items as [|[child info'] items IH]; intros st st' u info Hin Hres Hrun.
  { by apply elem_of_nil in Hin. }
  simpl in Hrun. apply elem_of_cons in Hin as [Heq|Hin].
  - simplify_eq. case_bool_decide as Hseen.
    { apply scan_mono in Hrun. set_solver. }
    rewrite Hres in Hrun.
    destruct (select_for limit g root root_id child info') as [select|e];
      [|done].
    apply scan_mono in Hrun. simpl in Hrun. set_solver.
  - case_bool_decide as Hseen; [by eapply IH|].
    destruct (resolvable child info' (seen st)) eqn:Hres'; [|by eapply IH].
    destruct (select_for limit g root root_id child info') as [select|e];
      [|done].
    eapply IH; [done| |done]. simpl.
    eapply resolvable_mono; [|done]. set_solver.
Qed.

(** Every statement yielded is the one computed for a table of the
    graph. *)
Lemma steps_yielded (st st' : GenState) :
  rtc (resolves limit g root root_id) st st' ->
  ∀ child select, (child, select) ∈ yielded st' ->
    (child, select) ∈ yielded st ∨
    ∃ info, (child, info) ∈ g
            ∧ select_for limit g root root_id child info = Ok select.
Proof.
  induction 1 as [st|st st1 st2 Hstep _ IH]; intros child select Hin; [by left|].
  destruct (IH child select Hin) as [Hold|Hnew]; [|by right].
  destruct Hstep as [st c info s Hg _ _ Hsel]. simpl in Hold.
  apply elem_of_app in Hold as [Hold|Heq%list_elem_of_singleton]; [by left|].
  simplify_eq. right. by exists info.
Qed.

Lemma step_good (st st' : GenState) :
  Dict.wf g -> good g st -> resolves limit g root root_id st st' -> good g st'.
Proof.
  intros Hwf Hgood Hstep.
  destruct Hstep as [st0 c info s Hg Hfresh Hres Hsel].
  destruct Hgood as [Hseen Hkeys Hnodup Horder].
  split; simpl.
  - rewrite fmap_app, list_to_set_app_L, <- Hseen. simpl. set_solver.
  - apply union_subseteq. split; [|done].
    apply singleton_subseteq_l, elem_of_list_to_set, list_elem_of_fmap.
    by exists (c, info).
  - rewrite fmap_app. apply NoDup_app. split_and!; [done| |apply NoDup_singleton].
    intros x Hx ->%list_elem_of_singleton. apply Hfresh.
    rewrite Hseen. by apply elem_of_list_to_set.
  - intros i t s' Hi p Hp.
    destruct (decide (i < length (yielded st0))) as [Hlt|Hge].
    + rewrite lookup_app_l in Hi by done.
      rewrite take_app_le by lia. by eapply Horder.
    + rewrite lookup_app_r in Hi by lia.
      apply list_lookup_singleton_Some in Hi as [Hi ?]. simplify_eq.
      assert (i = length (yielded st0)) as -> by lia.
      rewrite take_app_length.
      destruct Hp as (Hne & info' & Hget & Hp).
      rewrite (elem_of_get g t info Hwf Hg) in Hget. simplify_eq.
      apply bool_decide_eq_true in Hres.
      assert (p ∈ seen st0) as Hin; [|by rewrite Hseen, elem_of_list_to_set in Hin].
      apply Hres. apply elem_of_difference. split; [|set_solver].
      by apply elem_of_list_to_set.
Qed.

Lemma steps_good (st st' : GenState) :
  Dict.wf g -> good g st -> rtc (resolves limit g root root_id) st st' -> good g st'.
Proof.
  intros Hwf Hgood Hsteps. induction Hsteps as [|st st1 st2 Hstep _ IH]; [done|].
  apply IH. by eapply step_good.
Qed.

Lemma good_init : good g {| seen := ∅; yielded := [] |}.
Proof.
  split; simpl; [done|set_solver|apply NoDup_nil_2|].
  by intros i t s ?.
Qed.

(** The whole run is a sequence of resolutions from the empty state. *)
Lemma table_data_from_steps (passes : nat) :
  ∀ st st' status,
    table_data_from limit passes g root root_id st = (st', status) ->
    ∃ st1, rtc (resolves limit g root root_id) st st1 ∧ yielded st' = yielded st1
           ∧ (status = Finished -> st' = st1 ∧ length g ≤ size (seen st')).
Proof.
  induction passes as [|passes IH]; intros st st' status Hrun; simpl in Hrun.
  - case_decide; simplify_eq; exists st'; split_and!; try done.
    intros _. split; [done|lia].
  - case_decide.
    + destruct (scan limit g root root_id g st) as [st1 [e|]] eqn:Hscan.
      * simplify_eq. apply scan_steps in Hscan as (st2 & ? & ? & _); [|done].
        exists st2. by split_and!.
      * apply scan_steps in Hscan as (st2 & Hsteps & _ & Heq); [|done].
        rewrite Heq in Hrun by done.
        apply IH in Hrun as (st3 & Hsteps' & ? & ?).
        exists st3. split; [|done]. by etrans.
    + simplify_eq. exists st'. split_and!; try done. intros _. split; [done|lia].
Qed.
End Sequencer.

(** ** Progress of the resolution loop *)

(** In a finite set of tables closed under an acyclic relation nobody can
    descend for ever. *)
Lemma no_infinite_descent (R : relation string) (U : gset string) :
  acyclic R ->
  (∀ u, u ∈ U -> ∃ p, R u p ∧ p ∈ U) ->
  ∀ (n : nat) (stack : gset string) (t : string),
    t ∈ U -> stack ⊆ U -> (∀ a, a ∈ stack -> tc R a t) ->
    size U < n + size stack -> False.
Proof.
  intros Hacyc Hnext. induction n as [|n IH]; intros stack t Ht Hsub Hanc Hsize.
  { apply subseteq_size in Hsub. lia. }
  destruct (Hnext t Ht) as (p & Htp & Hp).
  assert (Hfresh : t ∉ stack).
  { intros Hin. by apply (Hacyc t), Hanc. }
  apply (IH ({[t]} ∪ stack) p); [done|set_solver| |].
  - intros a [->%elem_of_singleton|Ha]%elem_of_union.
    + by apply tc_once.
    + eapply tc_r; [by apply Hanc|done].
  - rewrite size_union, size_singleton by set_solver. lia.
Qed.

(** A non-empty set of tables has one that references none of the set. *)
Lemma acyclic_sink (g : Graph) (U : gset string) :
  acyclic (fk_step g) -> U ≠ ∅ ->
  ∃ u, u ∈ U ∧ ∀ p, fk_step g u p -> p ∉ U.
Proof.
  intros Hacyc Hne.
  destruct (decide (Exists (fun u => Forall (fun p => p ∉ U) (fk_targets g u))
                      (elements U))) as [Hex|Hno].
  - apply Exists_exists in Hex as (u & Hu & Hall). exists u.
    split; [by apply elem_of_elements|].
    intros p Hp%elem_of_fk_targets. rewrite Forall_forall in Hall. by apply Hall.
  - exfalso. apply set_choose_L in Hne as [t Ht].
    apply (no_infinite_descent (fk_step g) U Hacyc) with (n := S (size U))
                                                         (stack := ∅) (t := t);
      [|done|apply empty_subseteq|by intros a ?%elem_of_empty
       |rewrite size_empty; lia].
    intros u Hu. apply not_Exists_Forall in Hno; [|apply _].
    rewrite Forall_forall in Hno. specialize (Hno u).
    assert (Hnot : ¬ Forall (fun p => p ∉ U) (fk_targets g u)).
    { apply Hno. by apply elem_of_elements. }
    apply not_Forall_Exists in Hnot; [|apply _].
    apply Exists_exists in Hnot as (p & Hp & HpU). exists p.
    split; [by apply elem_of_fk_targets|]. by apply dec_stable.
Qed.

Lemma size_keyset_wf {V : Type} (d : Dict.t V) :
  Dict.wf d -> size (keyset d) = length d.
Proof.
  intros Hwf. unfold keyset. rewrite size_list_to_set by done.
  unfold Dict.keys. by rewrite length_fmap.
Qed.

Section Finishes.
Context (limit : nat) (g : Graph) (root root_id : string).
Hypothesis (Hwf : Dict.wf g).
Hypothesis (Hacyc : acyclic (fk_step g)).
Hypothesis (Hclosed : fk_closed g).
Hypothesis (Hpk : has_pk g).
Hypothesis (Hlimit : length g < limit).

Lemma select_for_total (child : string) (info : TableInfo) :
  (child, info) ∈ g ->
  ∃ select, select_for limit g root root_id child info = Ok select.
Proof.
  intros Hin. unfold select_for.
  destruct (pks info) as [|pk rest] eqn:Hpks; [by apply Hpk in Hin|]. simpl.
  destruct (find_joins_returns g root child limit None) as [res ->].
  - by apply (acyclic_sub _ _ (nn_step_fk_step g)).
  - by apply fk_closed_nn_closed.
  - done.
  - right. apply get_is_Some, list_elem_of_fmap. by exists (child, info).
  - simpl. destruct res as [[|hop hops]|]; try case_decide; by eexists.
Qed.

(** A pass over a graph with unresolved tables resolves one more. *)
Lemma scan_resolves_more (st : GenState) :
  good g st -> size (seen st) < length g ->
  ∃ st', scan limit g root root_id g st = (st', None)
         ∧ good g st' ∧ size (seen st) < size (seen st').
Proof.
  intros Hgood Hsize.
  destruct (scan_total limit g root root_id g) with (st := st) as [st' Hscan].
  { intros child info. apply select_for_total. }
  exists st'. split; [done|].
  pose proof (scan_steps limit g root root_id g st st' None) as Hsteps.
  destruct Hsteps as (st1 & Hsteps & _ & Heq); [done..|].
  rewrite <- (Heq eq_refl) in Hsteps. clear Heq st1.
  split; [by eapply steps_good|].
  destruct (acyclic_sink g (keyset g ∖ seen st) Hacyc) as (u & Hu & Hsink).
  { intros Hempty. pose proof (good_keys _ _ Hgood) as Hsub.
    assert (seen st = keyset g) as Heq.
    { apply set_eq. intros x. split; [apply Hsub|]. intros Hx.
      destruct (decide (x ∈ seen st)) as [|Hout]; [done|].
      assert (Hin : x ∈ keyset g ∖ seen st) by by apply elem_of_difference.
      rewrite Hempty in Hin. by apply elem_of_empty in Hin. }
    rewrite Heq, size_keyset_wf in Hsize by done. lia. }
  apply elem_of_difference in Hu as [Hukey Hufresh].
  apply elem_of_keyset in Hukey as [info Hget].
  assert (Hres : resolvable u info (seen st) = true).
  { apply bool_decide_eq_true. intros p [Hp Hpu]%elem_of_difference.
    apply elem_of_list_to_set in Hp.
    assert (Hstep : fk_step g u p).
    { split; [set_solver|]. by exists info. }
    destruct (decide (p ∈ seen st)) as [|Hout]; [done|].
    exfalso. apply (Hsink p Hstep). apply elem_of_difference. split; [|done].
    by apply elem_of_keyset, (Hclosed u p). }
  pose proof (scan_progress limit g root root_id g st st' u info) as Hprog.
  apply subset_size. split; [by eapply scan_mono|].
  intros Hback. apply Hufresh, Hback, Hprog; [|done..].
  by apply get_Some_elem_of.
Qed.

(** The loop ends after at most one pass per table, with every table
    resolved. *)
Lemma table_data_from_finishes (passes : nat) :
  ∀ st, good g st -> length g ≤ passes + size (seen st) ->
    ∃ st', table_data_from limit passes g root root_id st = (st', Finished)
           ∧ good g st' ∧ seen st' = keyset g.
Proof.
  assert (Hdone : ∀ st, good g st -> ¬ size (seen st) < length g ->
                        seen st = keyset g).
  { intros st Hgood Hsize. apply set_subseteq_size_eq; [apply Hgood|].
    rewrite size_keyset_wf by done. lia. }
  induction passes as [|passes IH]; intros st Hgood Hsize; simpl.
  - rewrite decide_False by lia. exists st. split_and!; [done..|].
    apply Hdone; [done|lia].
  - case_decide as Hlt; [|exists st; split_and!; [done..|by apply Hdone]].
    destruct (scan_resolves_more st Hgood Hlt) as (st1 & -> & Hgood1 & Hmore).
    apply IH; [done|lia].
Qed.
End Finishes.

Lemma scenario_built :
  build_graph Scenario.tables Scenario.fkeys None = Ok Scenario.graph.
Proof. reflexivity. Qed.

Lemma scenario_built' :
  build_graph Scenario.tables' Scenario.fkeys None = Ok Scenario.graph'.
Proof. reflexivity. Qed.

(** A well-formed acyclic graph is resolved completely. *)
Lemma table_data_complete (limit passes : nat) (g : Graph)
    (root root_id : string) :
  Dict.wf g ->
  acyclic (fk_step g) ->
  fk_closed g ->
  has_pk g ->
  length g < limit ->
  length g ≤ passes ->
  ∃ ys, table_data limit passes g root root_id = (ys, Finished)
        ∧ ys.*1 ≡ₚ Dict.keys g
        ∧ in_order g ys.
Proof.
  intros Hwf Hacyc Hclosed Hpk Hlimit Hpasses. unfold table_data.
  destruct (table_data_from_finishes limit g root root_id Hwf Hacyc Hclosed
              Hpk Hlimit passes {| seen := ∅; yielded := [] |})
    as (st & -> & Hgood & Hall).
  { apply good_init. }
  { simpl. lia. }
  exists (yielded st). split; [done|]. destruct Hgood as [Hseen _ Hnodup Horder].
  split; [|done]. apply NoDup_Permutation; [done..|].
  intros t. rewrite <- (elem_of_list_to_set (C := gset string)), <- Hseen, Hall.
  unfold keyset. by rewrite elem_of_list_to_set.
Qed.

(** C3, amended: for a graph (a dictionary) whose foreign keys, self
    references apart, are acyclic and all lead to tables of the graph, and
    whose tables all have a primary-key column, the resolution loop ends
    after at most one pass per table, having yielded every table of the
    graph exactly once, each one after every other table it holds a foreign
    key into.  ([limit] leaves room for one nested call of [find_joins] per
    table.) *)
Theorem table_data_resolves_all (limit passes : nat) (g : Graph)
    (root root_id : string) :
  Dict.wf g ->
  acyclic (fk_step g) ->
  fk_closed g ->
  has_pk g ->
  length g < limit ->
  length g ≤ passes ->
  ∃ ys, table_data limit passes g root root_id = (ys, Finished)
        ∧ ys.*1 ≡ₚ Dict.keys g
        ∧ in_order g ys.
Proof. apply table_data_complete. Qed.

Lemma table_data_resolves_all_witness :
  ∃ ys, table_data 10 3 Scenario.graph "order" "42" = (ys, Finished)
        ∧ ys.*1 ≡ₚ Dict.keys Scenario.graph
        ∧ in_order Scenario.graph ys.
Proof.
  apply (table_data_resolves_all 10 3 Scenario.graph "order" "42").
  - unfold Dict.wf. simpl. repeat constructor; set_solver.
  - apply (ranked_acyclic Scenario.rank). reflexivity.
  - apply closedb_fk_closed. reflexivity.
  - apply has_pkb_has_pk. reflexivity.
  - simpl. lia.
  - simpl. lia.
Defined.

Lemma dangling_stuck (passes : nat) :
  table_data_from 1000 passes Examples.dangling "r" "1"
    {| seen := {["r"]} ∪ ∅;
       yielded := [("r", "SELECT * FROM r WHERE id = 1")] |}
  = ({| seen := {["r"]} ∪ ∅;
        yielded := [("r", "SELECT * FROM r WHERE id = 1")] |}, Running).
Proof.
  induction passes as [|passes IH].
  - vm_compute. reflexivity.
  - change (table_data_from 1000 (S passes) Examples.dangling "r" "1" ?st)
      with (if decide (size (seen st) < length Examples.dangling) then
              match scan 1000 Examples.dangling "r" "1" Examples.dangling st with
              | (st', Some e) => (st', Failed e)
              | (st', None) =>
                  table_data_from 1000 passes Examples.dangling "r" "1" st'
              end
            else (st, Finished)).
    rewrite decide_True by (vm_compute; lia).
    assert (Hscan : scan 1000 Examples.dangling "r" "1" Examples.dangling
              {| seen := {["r"]} ∪ ∅;
                 yielded := [("r", "SELECT * FROM r WHERE id = 1")] |}
            = ({| seen := {["r"]} ∪ ∅;
                  yielded := [("r", "SELECT * FROM r WHERE id = 1")] |}, None))
      by (vm_compute; reflexivity).
    rewrite Hscan. exact IH.
Qed.

(** C3 as stated fails.  The graph built from a catalog in which [t]
    references a table [v] without primary key has acyclic foreign keys, but
    [t] never becomes resolvable: every pass leaves the state unchanged and
    the loop never ends.  And a table with an empty list of primary-key
    columns stops the generator with an [IndexError]. *)
Lemma table_data_unresolvable_counterexample :
  build_graph Examples.dangling_tables Examples.dangling_fkeys None
    = Ok Examples.dangling ∧
  acyclic (fk_step Examples.dangling) ∧
  (∀ passes, table_data 1000 (S passes) Examples.dangling "r" "1"
             = ([("r", "SELECT * FROM r WHERE id = 1")], Running)) ∧
  acyclic (fk_step Examples.keyless) ∧
  (∀ passes, table_data 1000 (S passes) Examples.keyless "r" "1"
             = ([], Failed IndexError)).
Proof.
  split; [reflexivity|]. split; [apply dangling_acyclic|]. split; [|split].
  - intros passes. unfold table_data.
    change (table_data_from 1000 (S passes) Examples.dangling "r" "1" ?st)
      with (if decide (size (seen st) < length Examples.dangling) then
              match scan 1000 Examples.dangling "r" "1" Examples.dangling st with
              | (st', Some e) => (st', Failed e)
              | (st', None) =>
                  table_data_from 1000 passes Examples.dangling "r" "1" st'
              end
            else (st, Finished)).
    rewrite decide_True by (vm_compute; lia).
    assert (Hscan : scan 1000 Examples.dangling "r" "1" Examples.dangling
              {| seen := ∅; yielded := [] |}
            = ({| seen := {["r"]} ∪ ∅;
                  yielded := [("r", "SELECT * FROM r WHERE id = 1")] |}, None))
      by (vm_compute; reflexivity).
    rewrite Hscan, dangling_stuck. reflexivity.
  - apply (ranked_acyclic (fun _ => 0)). reflexivity.
  - intros passes. vm_compute. reflexivity.
Qed.

(** ** The statements yielded *)

Lemma table_data_yields (limit passes : nat) (g : Graph) (root root_id : string)
    (ys : list (string * string)) (status : Status) (child select : string) :
  table_data limit passes g root root_id = (ys, status) ->
  (child, select) ∈ ys ->
  ∃ info, (child, info) ∈ g
          ∧ select_for limit g root root_id child info = Ok select.
Proof.
  unfold table_data.
  destruct (table_data_from _ _ _ _ _ _) as [st status'] eqn:Hrun.
  intros ? Hin. simplify_eq.
  apply table_data_from_steps in Hrun as (st1 & Hsteps & Hy & _).
  rewrite Hy in Hin.
  destruct (steps_yielded _ _ _ _ _ _ Hsteps child select Hin) as [Hold|Hnew];
    [by apply elem_of_nil in Hold|done].
Qed.

(** The statement computed for a table with a non-empty join path: the
    joins follow the path, and the column of the [WHERE] clause is the first
    primary-key column of the table itself. *)
Lemma select_for_joined (limit : nat) (g : Graph) (root root_id child : string)
    (info : TableInfo) (pk : string) (rest : list string) (hop : Hop)
    (hops : list Hop) :
  pks info = pk :: rest ->
  find_joins limit child root g None = Ok (Some (hop :: hops)) ->
  select_for limit g root root_id child info =
    Ok (String.concat " "
          (["SELECT " +:+ child +:+ ".* FROM " +:+ child]
             ++ join_parts child (hop :: hops)
             ++ ["WHERE " +:+ root +:+ "." +:+ pk +:+ " = " +:+ root_id])).
Proof. unfold select_for. by intros -> ->. Qed.

(** C4, the code at a failing input: with [order_item] keyed by [item_id]
    and [order] keyed by [id], the statement yielded for [order_item]
    filters on [order.item_id], the primary-key column of [order_item], and
    not on [order.id], the primary key of the root table. *)
Theorem table_data_where_names_child_pk :
  build_graph Scenario.tables' Scenario.fkeys None = Ok Scenario.graph' ∧
  (pks <$> Dict.get Scenario.graph' "order") = Some ["id"] ∧
  table_data 1000 3 Scenario.graph' "order" "42" =
    ([("order", "SELECT * FROM order WHERE id = 42");
      ("order_item",
       "SELECT order_item.* FROM order_item JOIN order ON order_item.order_id = order.id WHERE order.item_id = 42");
      ("country", "SELECT * FROM country")],
     Finished).
Proof. split; [reflexivity|]. split; [reflexivity|]. vm_compute. reflexivity. Qed.

(** Every table of a completely resolved graph has its statement. *)
Lemma table_data_complete_yields (limit passes : nat) (g : Graph)
    (root root_id child : string) :
  Dict.wf g -> acyclic (fk_step g) -> fk_closed g -> has_pk g ->
  length g < limit -> length g ≤ passes ->
  child ∈ Dict.keys g ->
  ∃ ys select, table_data limit passes g root root_id = (ys, Finished)
               ∧ (child, select) ∈ ys.
Proof.
  intros Hwf Hacyc Hclosed Hpk Hlimit Hpasses Hkey.
  destruct (table_data_complete limit passes g root root_id)
    as (ys & Hrun & Hperm & _); [done..|].
  rewrite <- Hperm in Hkey. apply list_elem_of_fmap in Hkey as ([c select] & -> & Hin).
  by exists ys, select.
Qed.

Lemma unrelated_statement (limit passes : nat) (g : Graph)
    (root root_id : string) (ys : list (string * string)) (status : Status)
    (child select : string) :
  child ≠ root ->
  (∀ hops, ¬ join_chain g child root hops) ->
  table_data limit passes g root root_id = (ys, status) ->
  (child, select) ∈ ys ->
  select = "SELECT * FROM " +:+ child.
Proof.
  intros Hne Hnone Hrun Hin.
  destruct (table_data_yields _ _ _ _ _ _ _ _ _ Hrun Hin) as (info & _ & Hsel).
  unfold select_for in Hsel.
  destruct (pks info) as [|pk rest]; [done|]. simpl in Hsel.
  destruct (find_joins limit child root g None) as [res|] eqn:Hfind; [|done].
  simpl in Hsel. apply find_joins_correct in Hfind.
  rewrite decide_False in Hfind by done. destruct res as [full|].
  - destruct Hfind as (hops & _ & Hch & _). by apply Hnone in Hch.
  - rewrite decide_False in Hsel by done. by simplify_eq.
Qed.

Lemma root_statement (limit passes : nat) (g : Graph)
    (root root_id : string) (ys : list (string * string)) (status : Status)
    (select : string) :
  table_data limit passes g root root_id = (ys, status) ->
  (root, select) ∈ ys ->
  ∃ info pk rest,
    (root, info) ∈ g ∧ pks info = pk :: rest ∧
    select = "SELECT * FROM " +:+ root +:+ " WHERE " +:+ pk +:+ " = " +:+ root_id.
Proof.
  intros Hrun Hin.
  destruct (table_data_yields _ _ _ _ _ _ _ _ _ Hrun Hin) as (info & Hg & Hsel).
  unfold select_for in Hsel.
  destruct (pks info) as [|pk rest] eqn:Hpks; [done|]. simpl in Hsel.
  destruct (find_joins limit root root g None) as [res|] eqn:Hfind; [|done].
  simpl in Hsel. apply find_joins_correct in Hfind.
  rewrite decide_True in Hfind by done. subst res.
  rewrite decide_True in Hsel by done. simplify_eq.
  by exists info, pk, rest.
Qed.

(** C6: for a table that is not the root and has no join path to the root,
    the statement yielded by any run of [table_data] is [SELECT * FROM] that
    table, without join and without filter; and on a graph that is resolved
    completely (see C3) that statement is indeed yielded for every such
    table of the graph. *)
Theorem table_data_unrelated_full_copy (limit passes : nat) (g : Graph)
    (root root_id child : string) :
  child ≠ root ->
  (∀ hops, ¬ join_chain g child root hops) ->
  (∀ ys status select,
     table_data limit passes g root root_id = (ys, status) ->
     (child, select) ∈ ys ->
     select = "SELECT * FROM " +:+ child) ∧
  (Dict.wf g -> acyclic (fk_step g) -> fk_closed g -> has_pk g ->
   length g < limit -> length g ≤ passes ->
   child ∈ Dict.keys g ->
   ∃ ys, table_data limit passes g root root_id = (ys, Finished)
         ∧ (child, "SELECT * FROM " +:+ child) ∈ ys).
Proof.
  intros Hne Hnone. split.
  - intros ys status select. by apply unrelated_statement.
  - intros Hwf Hacyc Hclosed Hpk Hlimit Hpasses Hkey.
    destruct (table_data_complete_yields limit passes g root root_id child)
      as (ys & select & Hrun & Hin); [done..|].
    exists ys. split; [done|].
    by rewrite <- (unrelated_statement _ _ _ _ _ _ _ _ _ Hne Hnone Hrun Hin).
Qed.

Lemma scenario_wf : Dict.wf Scenario.graph.
Proof. unfold Dict.wf. simpl. repeat constructor; set_solver. Qed.

Lemma table_data_unrelated_full_copy_witness :
  (∀ ys status select,
     table_data 10 3 Scenario.graph "order" "42" = (ys, status) ->
     ("country", select) ∈ ys ->
     select = "SELECT * FROM " +:+ "country") ∧
  ∃ ys, table_data 10 3 Scenario.graph "order" "42" = (ys, Finished)
        ∧ ("country", "SELECT * FROM " +:+ "country") ∈ ys.
Proof.
  destruct (table_data_unrelated_full_copy 10 3 Scenario.graph "order" "42"
              "country") as [Hsafe Hlive].
  - done.
  - intros [|hop rest] (Hne & Hch & _); [done|].
    destruct Hch as [(_ & info & columns & Hget & Hcol & _) _].
    simpl in Hget. simplify_eq. simpl in Hcol. by apply elem_of_nil in Hcol.
  - split; [exact Hsafe|]. apply Hlive.
    + apply scenario_wf.
    + apply (ranked_acyclic Scenario.rank). reflexivity.
    + apply closedb_fk_closed. reflexivity.
    + apply has_pkb_has_pk. reflexivity.
    + simpl. lia.
    + simpl. lia.
    + apply elem_of_cons. right. apply elem_of_cons. right. by left.
Defined.

(** C7: the statement yielded for the root table by any run of
    [table_data] selects all its columns, filtered by its first primary-key
    column equal to the root row id, and is never a join query; and on a
    graph that is resolved completely (see C3) that statement is indeed
    yielded when the root is a table of the graph. *)
Theorem table_data_root_statement (limit passes : nat) (g : Graph)
    (root root_id : string) :
  (∀ ys status select,
     table_data limit passes g root root_id = (ys, status) ->
     (root, select) ∈ ys ->
     ∃ info pk rest,
       (root, info) ∈ g ∧ pks info = pk :: rest ∧
       select = "SELECT * FROM " +:+ root +:+ " WHERE " +:+ pk
                  +:+ " = " +:+ root_id) ∧
  (Dict.wf g -> acyclic (fk_step g) -> fk_closed g -> has_pk g ->
   length g < limit -> length g ≤ passes ->
   root ∈ Dict.keys g ->
   ∃ ys info pk rest,
     table_data limit passes g root root_id = (ys, Finished) ∧
     Dict.get g root = Some info ∧ pks info = pk :: rest ∧
     (root, "SELECT * FROM " +:+ root +:+ " WHERE " +:+ pk
              +:+ " = " +:+ root_id) ∈ ys).
Proof.
  split.
  - intros ys status select. apply root_statement.
  - intros Hwf Hacyc Hclosed Hpk Hlimit Hpasses Hkey.
    destruct (table_data_complete_yields limit passes g root root_id root)
      as (ys & select & Hrun & Hin); [done..|].
    destruct (root_statement _ _ _ _ _ _ _ _ Hrun Hin)
      as (info & pk & rest & Hg & Hpks & ->).
    exists ys, info, pk, rest. split_and!; [done| |done..].
    by apply elem_of_get.
Qed.

Lemma table_data_root_statement_witness :
  ∃ ys info pk rest,
    table_data 10 3 Scenario.graph "order" "42" = (ys, Finished) ∧
    Dict.get Scenario.graph "order" = Some info ∧ pks info = pk :: rest ∧
    ("order", "SELECT * FROM " +:+ "order" +:+ " WHERE " +:+ pk
                +:+ " = " +:+ "42") ∈ ys.
Proof.
  apply (proj2 (table_data_root_statement 10 3 Scenario.graph "order" "42")).
  - apply scenario_wf.
  - apply (ranked_acyclic Scenario.rank). reflexivity.
  - apply closedb_fk_closed. reflexivity.
  - apply has_pkb_has_pk. reflexivity.
  - simpl. lia.
  - simpl. lia.
  - by left.
Defined.

(** * The orchestrator (C8, C9) *)

Lemma filter_all {A : Type} (P : A -> Prop) `{!∀ x, Decision (P x)}
    (l : list A) :
  (∀ x, x ∈ l -> P x) -> filter P l = l.
Proof.
  induction l as [|x l IH]; intros Hall; [done|].
  rewrite filter_cons, decide_True by (apply Hall; by left).
  f_equal. apply IH. intros y Hy. apply Hall. by right.
Qed.

(** When the generator has finished on a graph built without exclusions,
    both tables of every FK row have been yielded. *)
Lemma finished_present (limit passes : nat) (db : Db) (g : Graph)
    (root root_id : string) (ys : list (string * string)) (row : FkRow) :
  build_graph (db_tables db) (db_fks db) None = Ok g ->
  table_data limit passes g root root_id = (ys, Finished) ->
  row ∈ db_fks db -> present ys.*1 row.
Proof.
  intros (Hwf & _ & _ & Hedges)%build_graph_spec Hrun Hrow. unfold table_data in Hrun.
  destruct (table_data_from _ _ _ _ _ _) as [st status] eqn:Hfrom. simplify_eq.
  apply table_data_from_steps in Hfrom as (st1 & Hsteps & _ & Hfin).
  destruct (Hfin eq_refl) as [<- Hsize]. clear Hfin.
  apply steps_good in Hsteps; [|done|apply good_init].
  destruct Hsteps as [Hseen Hkeys _ Horder].
  assert (Hall : seen st = keyset g).
  { apply set_subseteq_size_eq; [done|]. rewrite size_keyset_wf by done. lia. }
  destruct (proj2 (Hedges (fk_table_name row) (foreign_table_name row)
                     (edge_of row))) as (info & columns & Hget & Hcol & _).
  { by exists row. }
  assert (Howner : fk_table_name row ∈ (yielded st).*1).
  { rewrite <- (elem_of_list_to_set (C := gset string)), <- Hseen, Hall.
    apply elem_of_keyset. by eexists. }
  split; [done|].
  destruct (decide (foreign_table_name row = fk_table_name row)) as [->|Hne];
    [done|].
  apply list_elem_of_fmap in Howner as ([t s] & Ht & Hin). simpl in Ht. subst t.
  apply list_elem_of_lookup in Hin as [i Hi].
  assert (Hp : foreign_table_name row ∈ (take i (yielded st)).*1).
  { apply (Horder i _ s Hi). split; [done|]. exists info. split; [done|].
    apply get_is_Some. by eexists. }
  apply list_elem_of_fmap in Hp as (y & -> & Hy).
  apply list_elem_of_fmap. exists y. split; [done|].
  apply elem_of_take in Hy as (j & Hj & _).
  by eapply list_elem_of_lookup_2.
Qed.

(** C8: when all tables have been cloned and populated, the restoration
    step issues one [ALTER TABLE ... ADD CONSTRAINT] statement for each
    foreign key between tables now present in the destination schema, and
    nothing else, with the constraint name, columns and target of the source
    and both table names qualified by the destination schema. *)
Theorem explode_row_restores_keys (limit passes : nat) (db : Db) (g : Graph)
    (opts : Opts) (pk : string) (row : Row) (events : list Event) :
  build_graph (db_tables db) (db_fks db) None = Ok g ->
  explode_row limit passes db g opts pk row = (events, Finished) ->
  ∃ schema root_id ys,
    table_data limit passes g (opt_table opts) root_id = (ys, Finished) ∧
    events =
      [Execute ("DROP SCHEMA IF EXISTS " +:+ schema +:+ " CASCADE");
       Execute ("CREATE SCHEMA " +:+ schema);
       Print ("+ " +:+ schema +:+ nl)]
      ++ flat_map (copy_events db schema) ys
      ++ restore_keys db schema ∧
    restore_keys db schema =
      (fun fk =>
         Execute ("ALTER TABLE " +:+ schema +:+ "." +:+ fk_table_name fk
                    +:+ " ADD CONSTRAINT " +:+ constraint_name fk
                    +:+ " FOREIGN KEY (" +:+ column_name fk
                    +:+ ") REFERENCES " +:+ schema +:+ "."
                    +:+ foreign_table_name fk
                    +:+ " (" +:+ foreign_column_name fk +:+ ")"))
        <$> filter (present ys.*1) (db_fks db).
Proof.
  intros Hbuilt Hrun. unfold explode_row in Hrun.
  match type of Hrun with
  | context [match ?r with Ok _ => _ | Raise _ => _ end] =>
      destruct r as [schema|e] eqn:Hschema; [|done]
  end.
  destruct (Dict.get row pk) as [root_id|] eqn:Hid; [|done].
  destruct (table_data limit passes g (opt_table opts) root_id)
    as [ys status] eqn:Hdata.
  destruct status; simplify_eq.
  exists schema, root_id, ys. split; [done|]. split.
  - by rewrite <- !app_assoc.
  - rewrite filter_all; [done|].
    intros fk Hfk. by eapply finished_present.
Qed.

Lemma explode_row_restores_keys_witness :
  ∃ schema root_id ys,
    table_data 10 3 Scenario.graph (opt_table Scenario.opts) root_id
      = (ys, Finished) ∧
    [ Execute "DROP SCHEMA IF EXISTS order_42 CASCADE";
      Execute "CREATE SCHEMA order_42";
      Print ("+ order_42" +:+ nl);
      Print "  ~ order: ";
      Execute "CREATE TABLE order_42.order (LIKE public.order INCLUDING ALL)";
      Execute "INSERT INTO order_42.order (SELECT * FROM order WHERE id = 42)";
      Print ("1" +:+ nl);
      Print "  ~ order_item: ";
      Execute "CREATE TABLE order_42.order_item (LIKE public.order_item INCLUDING ALL)";
      Execute "INSERT INTO order_42.order_item (SELECT order_item.* FROM order_item JOIN order ON order_item.order_id = order.id WHERE order.id = 42)";
      Print ("1" +:+ nl);
      Print "  ~ country: ";
      Execute "CREATE TABLE order_42.country (LIKE public.country INCLUDING ALL)";
      Execute "INSERT INTO order_42.country (SELECT * FROM country)";
      Print ("1" +:+ nl);
      Execute "ALTER TABLE order_42.order_item ADD CONSTRAINT order_item_order_id_fkey FOREIGN KEY (order_id) REFERENCES order_42.order (id)" ]
    = [Execute ("DROP SCHEMA IF EXISTS " +:+ schema +:+ " CASCADE");
       Execute ("CREATE SCHEMA " +:+ schema);
       Print ("+ " +:+ schema +:+ nl)]
      ++ flat_map (copy_events Scenario.db schema) ys
      ++ restore_keys Scenario.db schema ∧
    restore_keys Scenario.db schema =
      (fun fk =>
         Execute ("ALTER TABLE " +:+ schema +:+ "." +:+ fk_table_name fk
                    +:+ " ADD CONSTRAINT " +:+ constraint_name fk
                    +:+ " FOREIGN KEY (" +:+ column_name fk
                    +:+ ") REFERENCES " +:+ schema +:+ "."
                    +:+ foreign_table_name fk
                    +:+ " (" +:+ foreign_column_name fk +:+ ")"))
        <$> filter (present ys.*1) (db_fks Scenario.db).
Proof.
  apply (explode_row_restores_keys 10 3 Scenario.db Scenario.graph
           Scenario.opts "id" [("id", "42")]).
  - reflexivity.
  - vm_compute. reflexivity.
Defined.

(** ** The warning *)







(** ** The run of the orchestrator *)

Lemma executed_app (es es' : list Event) :
  executed (es ++ es') = executed es ++ executed es'.
Proof.
  induction es as [|[text|sql] es IH]; simpl; [done|done|]. by rewrite IH.
Qed.

Lemma executed_copy_events (db : Db) (schema : string)
    (ys : list (string * string)) :
  length (executed (flat_map (copy_events db schema) ys)) = 2 * length ys.
Proof.
  induction ys as [|[t s] ys IH]; [done|].
  cbn [flat_map]. rewrite executed_app, length_app, IH. simpl. lia.
Qed.

Lemma executed_restore_keys (db : Db) (schema : string) :
  length (executed (restore_keys db schema)) = length (db_fks db).
Proof.
  unfold restore_keys. induction (db_fks db) as [|fk fks IH]; simpl; [done|].
  by rewrite IH.
Qed.

Section Completes.
Context (limit passes : nat) (db : Db) (opts : Opts) (g : Graph) (pk : string).
Hypothesis (Hbuilt : build_graph (db_tables db) (db_fks db) None = Ok g).
Hypothesis (Hacyc : acyclic (fk_step g)).
Hypothesis (Hclosed : fk_closed g).
Hypothesis (Hpk : has_pk g).
Hypothesis (Hlimit : length g < limit).
Hypothesis (Hpasses : length g ≤ passes).

Lemma explode_row_completes (row : Row) :
  readable opts pk row ->
  ∃ events,
    explode_row limit passes db g opts pk row = (events, Finished) ∧
    length (executed events) = 2 + 2 * length g + length (db_fks db).
Proof.
  intros [[root_id Hid] Hcol]. unfold explode_row. rewrite Hid.
  assert (Hschema : ∃ schema,
    match
      match opt_schema opts with
      | Some column =>
          if decide (column = "") then None
          else Some (from_option Ok (Raise (KeyError column))
                       (Dict.get row column))
      | None => None
      end
    with
    | Some r => r
    | None => from_option (fun v => Ok (opt_table opts +:+ "_" +:+ v))
                (Raise (KeyError pk)) (Some root_id)
    end = Ok schema).
  { destruct (opt_schema opts) as [column|]; [|by eexists].
    case_decide as Hempty; [by eexists|].
    destruct (Hcol column eq_refl Hempty) as [v ->]. by eexists. }
  destruct Hschema as [schema ->].
  destruct (table_data_complete limit passes g (opt_table opts) root_id)
    as (ys & -> & Hperm & _); [|done..|].
  { by apply build_graph_spec in Hbuilt as [? _]. }
  eexists. split; [done|].
  rewrite !executed_app, !length_app, executed_copy_events,
    executed_restore_keys.
  assert (length ys = length g) as ->.
  { rewrite <- (length_fmap fst ys), Hperm. unfold Dict.keys.
    by rewrite length_fmap. }
  simpl. lia.
Qed.

Lemma explode_rows_completes (rows : list Row) :
  (∀ row, row ∈ rows -> readable opts pk row) ->
  ∃ events,
    explode_rows limit passes db g opts pk rows = (events, Finished) ∧
    length (executed events)
    = length rows * (2 + 2 * length g + length (db_fks db)).
Proof.
  induction rows as [|row rows IH]; intros Hrows; simpl.
  { by exists []. }
  destruct (explode_row_completes row) as (events & -> & Hlen).
  { apply Hrows. by left. }
  destruct IH as (events' & -> & Hlen').
  { intros r Hr. apply Hrows. by right. }
  exists (events ++ events'). split; [done|].
  rewrite executed_app, length_app, Hlen, Hlen'. lia.
Qed.
End Completes.




(** The run of the witness: the warning is written and the run completes. *)
Lemma explode_item_completes :
  head (explode 10 3 Scenario.item_db Scenario.item_opts).1 = Some (Print warning)
  ∧ (explode 10 3 Scenario.item_db Scenario.item_opts).2 = Finished.
Proof. split; vm_compute; reflexivity. Qed.



(** * Further properties of find_joins *)

(** X1: whatever the graph, a call that returns has found either nothing, and
    then there is no join path, or a join path with the fewest hops; never
    the empty path. *)
Theorem find_joins_result (g : Graph) (T R : string) (limit : nat)
    (res : option (list Hop)) :
  find_joins limit T R g None = Ok res ->
  match res with
  | None => T = R ∨ ∀ hops, ¬ join_chain g T R hops
  | Some hops => T ≠ R ∧ hops ≠ [] ∧ shortest g T R hops
  end.
Proof.
  intros Hrun. apply find_joins_correct in Hrun. case_decide as HT.
  - subst res. by left.
  - destruct res as [full|]; [|by right].
    destruct Hrun as (hops & -> & Hshort). simpl. split; [done|].
    split; [|done]. by destruct Hshort as [[? _] _].
Qed.

Lemma find_joins_result_witness :
  "c" ≠ "r" ∧ [("r", "r_id", "id")] ≠ []
  ∧ shortest Examples.diamond "c" "r" [("r", "r_id", "id")].
Proof.
  apply (find_joins_result Examples.diamond "c" "r" 5
           (Some [("r", "r_id", "id")])).
  vm_compute. reflexivity.
Defined.

(** X2: the only exceptions of [find_joins] are the [RecursionError] and the
    [KeyError] of a table that is reachable from the start through followed
    foreign keys, is not in the graph and is not the root. *)
Theorem find_joins_exceptions (g : Graph) (T R : string) (limit : nat)
    (path : option (list Hop)) (e : exn) :
  find_joins limit T R g path = Raise e ->
  e = RecursionError ∨
  ∃ k, e = KeyError k ∧ rtc (nn_step g) T k ∧ (k ∉ Dict.keys g) ∧ k ≠ R.
Proof.
  intros [->|(k & -> & Hreach & Hk & HR)]%find_joins_raise; [by left|].
  right. exists k. split_and!; [done..| |done]. by apply get_None.
Qed.

Lemma find_joins_exceptions_witness :
  KeyError "v" = RecursionError ∨
  ∃ k, KeyError "v" = KeyError k ∧ rtc (nn_step Examples.dangling) "t" k
       ∧ (k ∉ Dict.keys Examples.dangling) ∧ k ≠ "r".
Proof.
  apply (find_joins_exceptions Examples.dangling "t" "r" 1000 None).
  vm_compute. reflexivity.
Defined.

Lemma foldM_agree {A S : Type} (f f' : S -> A -> result S) (l : list A) :
  ∀ (s : S) (r : result S),
    (∀ s1 x r1, x ∈ l -> f s1 x = r1 -> r1 ≠ Raise RecursionError ->
                f' s1 x = r1) ->
    foldM f s l = r -> r ≠ Raise RecursionError -> foldM f' s l = r.
Proof.
  induction l as [|x l IH]; intros s r Hagree Hrun Hr; simpl in *; [done|].
  destruct (f s x) as [s1|e] eqn:Hf; simpl in Hrun.
  - rewrite (Hagree s x (Ok s1)); [|by left|done..]. simpl.
    apply IH; [|done..]. intros s2 y r1 Hy. apply Hagree. by right.
  - subst r. rewrite (Hagree s x (Raise e)); [done|by left|done..].
Qed.

(** X3: a larger recursion limit does not change what a call returns or
    raises, once the limit was large enough not to be hit. *)
Theorem find_joins_limit_irrelevant (g : Graph) (R : string) (limit : nat) :
  ∀ (limit' : nat) (T : string) (path : option (list Hop))
    (r : result (option (list Hop))),
    limit ≤ limit' ->
    find_joins limit T R g path = r ->
    r ≠ Raise RecursionError ->
    find_joins limit' T R g path = r.
Proof.
  induction limit as [|limit IH]; intros limit' T path r Hle Hrun Hr.
  { simpl in Hrun. by subst r. }
  destruct limit' as [|limit']; [lia|].
  rewrite find_joins_S in *. case_decide; [done|].
  destruct (Dict.get g T) as [info|]; [|done].
  assert (Hagree : ∀ cs hop r1,
            hop ∈ nn_hops T (fks info) ->
            collect limit R g (default [] path) cs hop = r1 ->
            r1 ≠ Raise RecursionError ->
            collect limit' R g (default [] path) cs hop = r1).
  { intros cs hop r1 _ Hstep Hr1. unfold collect in *.
    destruct (find_joins limit (hop_table hop) R g _) as [found|e] eqn:Hrec.
    - by rewrite (IH limit' _ _ (Ok found)); [|lia|done..].
    - simpl in Hstep. subst r1.
      rewrite (IH limit' _ _ (Raise e)); [reflexivity|lia|exact Hrec|].
      intros [= ->]. by apply Hr1. }
  destruct (foldM (collect limit R g (default [] path)) [] (nn_hops T (fks info)))
    as [cands|e] eqn:Hfold; simpl in Hrun.
  - by rewrite (foldM_agree _ _ _ _ _ Hagree Hfold).
  - subst r. rewrite (foldM_agree _ _ _ _ _ Hagree Hfold); [done|].
    intros ?. by simplify_eq.
Qed.

Lemma find_joins_limit_irrelevant_witness :
  find_joins 1000 "c" "r" Examples.diamond None
    = Ok (Some [("r", "r_id", "id")]).
Proof.
  apply (find_joins_limit_irrelevant Examples.diamond "r" 3 1000 "c" None).
  - lia.
  - vm_compute. reflexivity.
  - done.
Defined.

(** X5: the candidates are sorted as a stable sort on the lengths sorts them:
    the same candidates, in order of length, candidates of one length in
    the order they were found; so that, of several shortest join paths, the
    one found first is returned. *)
Theorem sort_by_len_stable {A : Type} (l : list (list A)) :
  sort_by_len l ≡ₚ l ∧
  StronglySorted (fun x y => length x ≤ length y) (sort_by_len l) ∧
  (∀ n, filter (fun x => length x = n) (sort_by_len l)
        = filter (fun x => length x = n) l) ∧
  ∀ c, head (sort_by_len l) = Some c ->
       ∃ l1 l2, l = l1 ++ c :: l2
                ∧ (∀ y, y ∈ l1 -> length c < length y)
                ∧ (∀ y, y ∈ l2 -> length c ≤ length y).
Proof.
  assert (Hperm : ∀ (x : list A) s, insert_by_len x s ≡ₚ x :: s).
  { intros x s. induction s as [|y s IH]; simpl; [done|].
    case_decide; [done|]. rewrite IH. apply Permutation_swap. }
  assert (Hsorted : ∀ (x : list A) s,
            StronglySorted (fun x y => length x ≤ length y) s ->
            StronglySorted (fun x y => length x ≤ length y) (insert_by_len x s)).
  { intros x s. induction s as [|y s IH]; intros Hs; simpl.
    - repeat constructor.
    - apply StronglySorted_inv in Hs as [Hs Hy]. case_decide as Hxy.
      + constructor; [by constructor|]. constructor; [done|].
        eapply Forall_impl; [exact Hy|]. simpl. intros z Hz. lia.
      + constructor; [by apply IH|].
        rewrite (Hperm x s). constructor; [lia|done]. }
  assert (Hstable : ∀ n (x : list A) s,
            filter (fun x => length x = n) (insert_by_len x s)
            = filter (fun x => length x = n) (x :: s)).
  { intros n x s. induction s as [|y s IH]; simpl; [done|].
    case_decide as Hxy; [done|].
    rewrite (filter_cons _ y), IH, !filter_cons.
    repeat case_decide; try done; lia. }
  induction l as [|x l (IHp & IHs & IHf & IHh)]; simpl.
  - split_and!; [done|constructor|done|done].
  - split_and!.
    + by rewrite Hperm, IHp.
    + by apply Hsorted.
    + intros n. by rewrite Hstable, !filter_cons, IHf.
    + intros c. rewrite head_insert_by_len. intros [= <-].
      pose proof (head_sort_by_len l) as Hnil.
      destruct (head (sort_by_len l)) as [y|].
      * destruct (IHh y eq_refl) as (l1 & l2 & -> & H1 & H2).
        case_decide as Hxy.
        -- exists [], (l1 ++ y :: l2). split_and!; [done|by intros ? ?%elem_of_nil|].
           intros z [Hz|[->|Hz]%elem_of_cons]%elem_of_app; [|done|].
           ++ specialize (H1 z Hz). lia.
           ++ specialize (H2 z Hz). lia.
        -- exists (x :: l1), l2. split_and!; [done| |done].
           intros z [->|Hz]%elem_of_cons; [lia|by apply H1].
      * subst l. exists [], []. split_and!; [done|..]; by intros ? ?%elem_of_nil.
Qed.

Lemma sort_by_len_stable_witness :
  ∃ l1 l2, [[1; 2]; [3]; [4]] = l1 ++ [3] :: l2
           ∧ (∀ y, y ∈ l1 -> length [3] < length y)
           ∧ (∀ y, y ∈ l2 -> length [3] ≤ length y).
Proof.
  apply (proj2 (proj2 (proj2 (sort_by_len_stable [[1; 2]; [3]; [4]])))).
  reflexivity.
Defined.

(** * Further properties of build_graph *)

Lemma edges_entry_default (rows : list FkRow) :
  default [] (edges_entry rows) = edge_of <$> rows.
Proof. by destruct rows. Qed.

Lemma edges_entry_snoc (rows : list FkRow) (row : FkRow) :
  edges_entry (rows ++ [row]) = Some ((edge_of <$> rows) ++ [edge_of row]).
Proof.
  unfold edges_entry. destruct (rows ++ [row]) as [|r rs] eqn:Heq.
  - by apply app_nil in Heq as [_ ?].
  - by rewrite <- Heq, fmap_app.
Qed.

(** X6: the foreign-key map of every node lists, under each referenced table,
    the edges of the FK rows from the node to that table that passed the
    exclusion test: all of them, as often as they occur and in the order of
    the query result; a table without such a row has no entry. *)
Theorem build_graph_edge_lists (table_rows : list TableRow)
    (fk_rows : list FkRow) (skip : option (list string)) (g : Graph) :
  build_graph table_rows fk_rows skip = Ok g ->
  ∀ t info p,
    Dict.get g t = Some info ->
    Dict.get (fks info) p = edges_entry (rows_of skip t p fk_rows).
Proof.
  unfold build_graph. intros Hrun.
  destruct (add_tables_spec skip table_rows []) as (_ & Hempty0 & _).
  { apply NoDup_nil_2. }
  { done. }
  set (g0 := fold_left (add_table skip) table_rows []) in *.
  pose (Inv := fun (visited : list FkRow) (g1 : Graph) =>
    ∀ t info p, Dict.get g1 t = Some info ->
                Dict.get (fks info) p = edges_entry (rows_of skip t p visited)).
  apply (foldM_inv _ Inv) in Hrun; [done| |].
  - intros t info p Hget. by rewrite (Hempty0 t info Hget).
  - intros visited row g1 g2 _ HInv Hstep t info p Hget.
    unfold rows_of. rewrite filter_app. fold (rows_of skip t p visited).
    destruct (kept_dec skip row) as [Hkept|Hnot].
    2: { rewrite add_fk_skipped in Hstep by done. simplify_eq.
         rewrite filter_cons, decide_False by tauto.
         rewrite filter_nil, app_nil_r. by apply HInv. }
    rewrite add_fk_kept in Hstep by done.
    destruct (Dict.get g1 (fk_table_name row)) as [info1|] eqn:Hget1; [|done].
    simplify_eq. rewrite get_set in Hget.
    destruct (decide (fk_table_name row = t)) as [<-|Ht].
    + simplify_eq. simpl. rewrite get_set.
      destruct (decide (foreign_table_name row = p)) as [<-|Hp].
      * rewrite filter_cons, decide_True by done. rewrite filter_nil.
        rewrite edges_entry_snoc. f_equal. f_equal.
        rewrite (HInv _ _ _ Hget1). apply edges_entry_default.
      * rewrite filter_cons, decide_False by tauto.
        rewrite filter_nil, app_nil_r. by apply HInv.
    + rewrite filter_cons, decide_False by tauto.
      rewrite filter_nil, app_nil_r. by apply HInv.
Qed.

Lemma build_graph_edge_lists_witness :
  Dict.get [("order", [("order_id", "id", false)])] "order"
  = edges_entry (rows_of None "order_item" "order" Scenario.fkeys).
Proof.
  apply (build_graph_edge_lists Scenario.tables Scenario.fkeys None
           Scenario.graph eq_refl "order_item"
           {| pks := ["id"]; fks := [("order", [("order_id", "id", false)])] |}
           "order").
  reflexivity.
Defined.

Lemma add_tables_distinct (skip : option (list string)) (rows : list TableRow) :
  ∀ g : Graph,
    NoDup (table_name <$> rows) ->
    (∀ t, t ∈ Dict.keys g -> t ∉ table_name <$> rows) ->
    let g' := fold_left (add_table skip) rows g in
    Dict.keys g' = Dict.keys g ++ kept_tables skip rows ∧
    (∀ row, row ∈ rows -> skipped skip (table_name row) = false ->
            Dict.get g' (table_name row)
              = Some {| pks := pk_cols row; fks := [] |}) ∧
    (∀ t, t ∉ table_name <$> rows -> Dict.get g' t = Dict.get g t).
Proof.
  unfold kept_tables.
  induction rows as [|row rows IH]; intros g Hnd Hfresh; cbn [fold_left].
  - rewrite fmap_nil, filter_nil, app_nil_r. split_and!; [done| |done].
    by intros row ?%elem_of_nil.
  - rewrite fmap_cons in Hnd, Hfresh. apply NoDup_cons in Hnd as [Hrow Hnd].
    assert (Hg : table_name row ∉ Dict.keys g).
    { intros Hin. apply (Hfresh _ Hin). by left. }
    destruct (IH (add_table skip g row)) as (Hkeys & Hpks & Hother); [done| |].
    { intros t. unfold add_table. destruct (skipped skip (table_name row)).
      - intros Hin Hin'. apply (Hfresh t Hin). by right.
      - rewrite keys_set, decide_False by done.
        intros [Hin| ->%list_elem_of_singleton]%elem_of_app; [|done].
        intros Hin'. apply (Hfresh t Hin). by right. }
    split_and!.
    + rewrite Hkeys, fmap_cons, filter_cons. unfold add_table.
      destruct (skipped skip (table_name row)) eqn:Hskip.
      * by rewrite decide_False by done.
      * rewrite decide_True by done. rewrite keys_set, decide_False by done.
        by rewrite <- app_assoc.
    + intros row' [->|Hin]%elem_of_cons Hskip; [|by apply Hpks].
      rewrite Hother by done. unfold add_table. rewrite Hskip.
      by rewrite get_set, decide_True.
    + intros t Ht. rewrite fmap_cons in Ht. rewrite Hother.
      * unfold add_table. destruct (skipped skip (table_name row)); [done|].
        rewrite get_set, decide_False; [done|]. intros Heq. apply Ht.
        apply elem_of_cons. by left.
      * intros Hin. apply Ht. by right.
Qed.

(** X7: when no table name occurs twice among the table rows, the nodes of the
    graph are the tables that are not excluded, in the order of the query
    result, each with the primary-key columns of its row. *)
Theorem build_graph_nodes (table_rows : list TableRow) (fk_rows : list FkRow)
    (skip : option (list string)) (g : Graph) :
  NoDup (table_name <$> table_rows) ->
  build_graph table_rows fk_rows skip = Ok g ->
  Dict.keys g = kept_tables skip table_rows ∧
  ∀ row, row ∈ table_rows -> skipped skip (table_name row) = false ->
         ∃ info, Dict.get g (table_name row) = Some info
                 ∧ pks info = pk_cols row.
Proof.
  intros Hnd Hrun. unfold build_graph in Hrun.
  destruct (add_tables_distinct skip table_rows [] Hnd) as (Hkeys0 & Hpks0 & _).
  { by intros t ?%elem_of_nil. }
  set (g0 := fold_left (add_table skip) table_rows []) in *.
  pose (Inv := fun (visited : list FkRow) (g1 : Graph) =>
    Dict.keys g1 = Dict.keys g0 ∧
    ∀ t info0, Dict.get g0 t = Some info0 ->
               ∃ info, Dict.get g1 t = Some info ∧ pks info = pks info0).
  apply (foldM_inv _ Inv) in Hrun.
  - destruct Hrun as [Hk Hpk]. split; [by rewrite Hk, Hkeys0|].
    intros row Hin Hskip. destruct (Hpk _ _ (Hpks0 row Hin Hskip)) as (info & ? & ?).
    by exists info.
  - split; [done|]. intros t info0 ?. by exists info0.
  - intros visited row g1 g2 _ [Hk Hpk] Hstep.
    apply add_fk_spec in Hstep as (Hk' & Hback & _). split; [congruence|].
    intros t info0 Hget0. destruct (Hpk t info0 Hget0) as (info1 & Hget1 & Hpks1).
    assert (is_Some (Dict.get g2 t)) as [info2 Hget2].
    { apply get_is_Some. rewrite Hk'. apply get_is_Some. by eexists. }
    exists info2. split; [done|].
    destruct (Hback t info2 Hget2) as (info1' & Hget1' & ->). congruence.
Qed.

Lemma build_graph_nodes_witness :
  Dict.keys Scenario.graph = kept_tables None Scenario.tables ∧
  ∀ row, row ∈ Scenario.tables -> skipped None (table_name row) = false ->
         ∃ info, Dict.get Scenario.graph (table_name row) = Some info
                 ∧ pks info = pk_cols row.
Proof.
  apply (build_graph_nodes Scenario.tables Scenario.fkeys None).
  - simpl. repeat constructor; set_solver.
  - reflexivity.
Defined.

(** * Further properties of table_data *)

(** What was yielded, in any run, is the yield of a state that satisfies
    the invariant. *)
Lemma table_data_good (limit passes : nat) (g : Graph) (root root_id : string)
    (ys : list (string * string)) (status : Status) :
  Dict.wf g ->
  table_data limit passes g root root_id = (ys, status) ->
  ∃ st, good g st ∧ yielded st = ys
        ∧ (status = Finished -> seen st = keyset g).
Proof.
  intros Hwf Hrun. unfold table_data in Hrun.
  destruct (table_data_from _ _ _ _ _ _) as [st' status'] eqn:Hfrom.
  simplify_eq.
  apply table_data_from_steps in Hfrom as (st1 & Hsteps & Hy & Hfin).
  apply steps_good in Hsteps; [|done|apply good_init].
  exists st1. split_and!; [done..|].
  intros ->. destruct (Hfin eq_refl) as [<- Hsize].
  apply set_subseteq_size_eq; [apply Hsteps|].
  rewrite size_keyset_wf by done. lia.
Qed.

Lemma table_data_yields_in_order_aux (limit passes : nat) (g : Graph)
    (root root_id : string) (ys : list (string * string)) (status : Status) :
  Dict.wf g ->
  table_data limit passes g root root_id = (ys, status) ->
  NoDup ys.*1 ∧ (∀ t, t ∈ ys.*1 -> t ∈ Dict.keys g) ∧ in_order g ys.
Proof.
  intros Hwf Hrun.
  destruct (table_data_good _ _ _ _ _ _ _ Hwf Hrun)
    as (st & [Hseen Hkeys Hnd Hord] & <- & _).
  split_and!; [done| |done].
  intros t Ht. apply (elem_of_list_to_set (C := gset string)).
  apply Hkeys. rewrite Hseen. by apply elem_of_list_to_set.
Qed.

(** X8: whatever the graph and however the run ends (finished, stopped by an
    exception, or still running), no table has been yielded twice, only
    tables of the graph have been yielded, and each one after every other
    table it holds a foreign key into. *)
Theorem table_data_yields_in_order (limit passes : nat) (g : Graph)
    (root root_id : string) (ys : list (string * string)) (status : Status) :
  Dict.wf g ->
  table_data limit passes g root root_id = (ys, status) ->
  NoDup ys.*1 ∧ (∀ t, t ∈ ys.*1 -> t ∈ Dict.keys g) ∧ in_order g ys.
Proof. apply table_data_yields_in_order_aux. Qed.

Lemma table_data_yields_in_order_witness :
  NoDup [("r", "SELECT * FROM r WHERE id = 1")].*1
  ∧ (∀ t, t ∈ [("r", "SELECT * FROM r WHERE id = 1")].*1 ->
          t ∈ Dict.keys Examples.dangling)
  ∧ in_order Examples.dangling [("r", "SELECT * FROM r WHERE id = 1")].
Proof.
  apply (table_data_yields_in_order 1000 2 Examples.dangling "r" "1"
           [("r", "SELECT * FROM r WHERE id = 1")] Running).
  - unfold Dict.wf. simpl. repeat constructor; set_solver.
  - vm_compute. reflexivity.
Defined.

Lemma in_order_tc (g : Graph) (ys : list (string * string)) (t u : string) :
  in_order g ys ->
  tc (fk_step g) t u ->
  ∀ i s, ys !! i = Some (t, s) -> ∃ j s', j < i ∧ ys !! j = Some (u, s').
Proof.
  intros Hord. induction 1 as [t u Hstep|t p u Hstep _ IH]; intros i s Hi.
  - pose proof (Hord i t s Hi u Hstep) as Hin.
    apply list_elem_of_fmap in Hin as ([u' s'] & -> & Hin).
    apply elem_of_take in Hin as (j & Hj & Hlt). by exists j, s'.
  - pose proof (Hord i t s Hi p Hstep) as Hin.
    apply list_elem_of_fmap in Hin as ([p' s'] & -> & Hin).
    apply elem_of_take in Hin as (j & Hj & Hlt).
    destruct (IH j s' Hj) as (k & s'' & Hk & Hu). exists k, s''.
    split; [lia|done].
Qed.

Lemma finished_all_yielded (limit passes : nat) (g : Graph)
    (root root_id : string) (ys : list (string * string)) (t : string) :
  Dict.wf g ->
  table_data limit passes g root root_id = (ys, Finished) ->
  t ∈ Dict.keys g -> t ∈ ys.*1.
Proof.
  intros Hwf Hrun Ht.
  destruct (table_data_good _ _ _ _ _ _ _ Hwf Hrun) as (st & Hgood & <- & Hall).
  apply (elem_of_list_to_set (C := gset string)).
  rewrite <- (good_seen _ _ Hgood), (Hall eq_refl).
  by apply elem_of_list_to_set.
Qed.

(** X9: a table that lies on a cycle of foreign keys through other tables is
    never yielded, and the run never finishes: it goes on scanning, or is
    stopped by an exception. *)
Theorem table_data_cycle_never_finishes (limit passes : nat) (g : Graph)
    (root root_id : string) (ys : list (string * string)) (status : Status)
    (t : string) :
  Dict.wf g ->
  tc (fk_step g) t t ->
  table_data limit passes g root root_id = (ys, status) ->
  (t ∉ ys.*1) ∧ status ≠ Finished.
Proof.
  intros Hwf Hcycle Hrun.
  destruct (table_data_yields_in_order_aux limit passes g root root_id ys status
              Hwf Hrun) as (Hnd & _ & Hord).
  assert (Hnot : t ∉ ys.*1).
  { intros ([t' s] & -> & Hin)%list_elem_of_fmap.
    apply list_elem_of_lookup in Hin as [i Hi].
    destruct (in_order_tc g ys _ _ Hord Hcycle i s Hi) as (j & s' & Hlt & Hj).
    assert (i = j); [|lia].
    apply (NoDup_lookup ys.*1 i j t'); [done|..];
      by rewrite list_lookup_fmap, ?Hi, ?Hj. }
  split; [done|]. intros ->. apply Hnot.
  eapply finished_all_yielded; [done..|].
  apply get_is_Some.
  inversion Hcycle as [? ? (_ & info & Hget & _)|? p ? (_ & info & Hget & _) _];
    by eexists.
Qed.

Lemma cyclic_wf : Dict.wf Examples.cyclic.
Proof. unfold Dict.wf. simpl. repeat constructor; set_solver. Qed.

Lemma cyclic_fk_cycle : tc (fk_step Examples.cyclic) "a" "a".
Proof.
  apply (tc_l _ _ "b"); [|apply tc_once]; (split; [done|]);
    eexists; (split; [reflexivity|]); by left.
Qed.

Lemma table_data_cycle_never_finishes_witness :
  ("a" ∉ [("r", "SELECT * FROM r WHERE id = 1")].*1) ∧ Running ≠ Finished.
Proof.
  apply (table_data_cycle_never_finishes 1000 2 Examples.cyclic "r" "1"
           [("r", "SELECT * FROM r WHERE id = 1")] Running "a").
  - apply cyclic_wf.
  - apply cyclic_fk_cycle.
  - vm_compute. reflexivity.
Defined.

(** X10: a table that holds a foreign key into a table that is not in the graph
    is never yielded, and the run never finishes. *)
Theorem table_data_missing_target_never_finishes (limit passes : nat)
    (g : Graph) (root root_id : string) (ys : list (string * string))
    (status : Status) (t p : string) :
  Dict.wf g ->
  fk_step g t p ->
  p ∉ Dict.keys g ->
  table_data limit passes g root root_id = (ys, status) ->
  (t ∉ ys.*1) ∧ status ≠ Finished.
Proof.
  intros Hwf Hstep Hp Hrun.
  destruct (table_data_yields_in_order_aux limit passes g root root_id ys status
              Hwf Hrun) as (_ & Hkeys & Hord).
  assert (Hnot : t ∉ ys.*1).
  { intros ([t' s] & -> & Hin)%list_elem_of_fmap.
    apply list_elem_of_lookup in Hin as [i Hi].
    apply Hp, Hkeys. pose proof (Hord i t' s Hi p Hstep) as Hin.
    apply list_elem_of_fmap in Hin as (y & -> & Hy).
    apply list_elem_of_fmap. exists y. split; [done|].
    by eapply subseteq_take. }
  split; [done|]. intros ->. apply Hnot.
  eapply finished_all_yielded; [done..|].
  destruct Hstep as (_ & info & Hget & _). apply get_is_Some. by eexists.
Qed.

Lemma dangling_wf : Dict.wf Examples.dangling.
Proof. unfold Dict.wf. simpl. repeat constructor; set_solver. Qed.

Lemma table_data_missing_target_never_finishes_witness :
  ("t" ∉ [("r", "SELECT * FROM r WHERE id = 1")].*1) ∧ Running ≠ Finished.
Proof.
  apply (table_data_missing_target_never_finishes 1000 2 Examples.dangling
           "r" "1" [("r", "SELECT * FROM r WHERE id = 1")] Running "t" "v").
  - apply dangling_wf.
  - split; [done|]. eexists. split; [reflexivity|].
    apply elem_of_cons. right. by left.
  - by intros [?|[?|?%elem_of_nil]%elem_of_cons]%elem_of_cons.
  - vm_compute. reflexivity.
Defined.




(** X4: [find_joins] looks at nothing but the foreign keys that are neither
    nullable nor self-referencing: two graphs that agree on those, table by
    table, give the same result; nullable foreign keys and self-references
    never change a join path. *)
Theorem find_joins_followed_only (g g' : Graph) (R : string) (limit : nat) :
  (∀ t, followed g t = followed g' t) ->
  ∀ (T : string) (path : option (list Hop)),
    find_joins limit T R g path = find_joins limit T R g' path.
Proof.
  intros Hsame. induction limit as [|limit IH]; intros T path; [done|].
  rewrite !find_joins_S. case_decide; [done|].
  specialize (Hsame T) as HT. unfold followed in HT.
  destruct (Dict.get g T) as [info|], (Dict.get g' T) as [info'|];
    simplify_eq/=; [|done].
  rewrite HT. f_equal. apply foldM_ext. intros cs hop. unfold collect.
  by rewrite IH.
Qed.

Lemma find_joins_followed_only_witness :
  find_joins 5 "c" "r" Examples.diamond None
  = find_joins 5 "c" "r" Examples.diamond' None.
Proof.
  apply (find_joins_followed_only Examples.diamond Examples.diamond' "r" 5).
  intros t. unfold followed. simpl.
  repeat (case_decide; [subst; reflexivity|]). reflexivity.
Defined.

(** * Further properties of the orchestrator *)

(** X12: on a catalog whose graph is resolved completely (acyclic foreign keys,
    all leading to tables with a primary key), with the root table in the
    graph, row ids that can be converted and every fetched root row carrying
    the columns that are read, the run completes, and it sends, for every
    root row, two statements to reset the schema, two for each table of the
    graph and one for each foreign key. *)
Theorem explode_completes (limit passes : nat) (db : Db) (opts : Opts)
    (g : Graph) (info : TableInfo) (pk : string) (rest : list string)
    (ps : list Param) :
  build_graph (db_tables db) (db_fks db) None = Ok g ->
  acyclic (fk_step g) ->
  fk_closed g ->
  has_pk g ->
  length g < limit ->
  length g ≤ passes ->
  Dict.get g (opt_table opts) = Some info ->
  pks info = pk :: rest ->
  params (opt_ids opts) = Ok ps ->
  (∀ row, row ∈ db_fetch db (root_query opts pk) ps -> readable opts pk row) ->
  ∃ events,
    explode limit passes db opts = (events, Finished) ∧
    length (executed events)
    = length (db_fetch db (root_query opts pk) ps)
      * (2 + 2 * length g + length (db_fks db)).
Proof.
  intros Hbuilt Hacyc Hclosed Hpk Hlimit Hpasses Hget Hpks Hps Hrows.
  unfold explode. rewrite Hbuilt, Hget, Hpks, Hps.
  destruct (explode_rows_completes limit passes db opts g pk Hbuilt Hacyc
              Hclosed Hpk Hlimit Hpasses _ Hrows) as (events & -> & Hlen).
  eexists. split; [done|].
  rewrite executed_app, length_app, Hlen. unfold root_warning.
  by destruct (fks info).
Qed.

Lemma explode_completes_witness :
  ∃ events,
    explode 10 3 Scenario.db Scenario.opts = (events, Finished) ∧
    length (executed events)
    = length (db_fetch Scenario.db (root_query Scenario.opts "id") [PInt 42])
      * (2 + 2 * length Scenario.graph + length (db_fks Scenario.db)).
Proof.
  apply (explode_completes 10 3 Scenario.db Scenario.opts Scenario.graph
           {| pks := ["id"]; fks := [] |} "id" [] [PInt 42]).
  - reflexivity.
  - apply (ranked_acyclic Scenario.rank). reflexivity.
  - apply closedb_fk_closed. reflexivity.
  - apply has_pkb_has_pk. reflexivity.
  - simpl. lia.
  - simpl. lia.
  - reflexivity.
  - reflexivity.
  - vm_compute. reflexivity.
  - intros row [->|?%elem_of_nil]%elem_of_cons; [|done]. split.
    + by eexists.
    + intros column Hcol. discriminate Hcol.
Defined.

Lemma explode_rows_app (limit passes : nat) (db : Db) (g : Graph) (opts : Opts)
    (pk : string) (rows rows' : list Row) (events : list Event) :
  explode_rows limit passes db g opts pk rows = (events, Finished) ->
  explode_rows limit passes db g opts pk (rows ++ rows')
  = (events ++ (explode_rows limit passes db g opts pk rows').1,
     (explode_rows limit passes db g opts pk rows').2).
Proof.
  revert events. induction rows as [|row rows IH]; intros events Hrun;
    simpl in *.
  { simplify_eq. by destruct (explode_rows _ _ _ _ _ _ rows'). }
  destruct (explode_row limit passes db g opts pk row) as [ev status].
  destruct status; try by simplify_eq.
  destruct (explode_rows limit passes db g opts pk rows) as [ev' status'].
  simplify_eq. rewrite (IH ev' eq_refl). by rewrite app_assoc.
Qed.

(** X13: the root rows are processed in order, and the first one whose copy does
    not finish ends the run: what was done for the rows before it and for
    the row itself has been done, and the rows after it are not touched. *)
Theorem explode_rows_stops (limit passes : nat) (db : Db) (g : Graph)
    (opts : Opts) (pk : string) (rows rows' : list Row) (row : Row)
    (events events' : list Event) (status : Status) :
  explode_rows limit passes db g opts pk rows = (events, Finished) ->
  explode_row limit passes db g opts pk row = (events', status) ->
  status ≠ Finished ->
  explode_rows limit passes db g opts pk (rows ++ row :: rows')
  = (events ++ events', status).
Proof.
  intros Hrows Hrow Hstatus. rewrite (explode_rows_app _ _ _ _ _ _ _ _ _ Hrows).
  simpl. rewrite Hrow. by destruct status.
Qed.

Lemma explode_rows_stops_witness :
  explode_rows 10 3 Scenario.db Scenario.graph Scenario.opts "id"
    ([[("id", "42")]] ++ [("name", "x")] :: [[("id", "43")]])
  = ((explode_row 10 3 Scenario.db Scenario.graph Scenario.opts "id"
        [("id", "42")]).1 ++ [],
     Failed (KeyError "id")).
Proof.
  apply explode_rows_stops.
  - vm_compute. reflexivity.
  - vm_compute. reflexivity.
  - done.
Defined.

(** ** The row ids *)

Lemma int_digits_raise (s : string) (e : exn) :
  int_digits s = Raise e -> e = ValueError.
Proof.
  unfold int_digits.
  destruct (code_points s) as [[|c cs]|]; [congruence| |congruence].
  case_decide; [|congruence]. destruct (mapM decimal (c :: cs)); congruence.
Qed.

Lemma param_raise (i : string) (e : exn) : param i = Raise e -> e = ValueError.
Proof.
  unfold param. destruct (isdigit i); [|done].
  destruct (int_digits i) as [n|e'] eqn:Hint; [done|].
  intros [= <-]. by apply int_digits_raise in Hint.
Qed.

Lemma params_raise (ids : list string) (i : string) :
  i ∈ ids -> param i = Raise ValueError -> params ids = Raise ValueError.
Proof.
  intros Hin Hi. induction ids as [|j ids IH]; [by apply elem_of_nil in Hin|].
  simpl. destruct (param j) as [p|e] eqn:Hj; simpl.
  - apply elem_of_cons in Hin as [->|Hin]; [congruence|].
    by rewrite (IH Hin).
  - by rewrite (param_raise j e Hj).
Qed.

(** X15: an id made of digits that is no numeral [int] converts (one of the
    digits is no decimal digit, a superscript two for instance, or there are
    more than [int_max_str_digits] of them) ends the run with a
    [ValueError] right after the warning, if there is one: no row is fetched
    and no statement is sent. *)
Theorem explode_rejects_digit_id (limit passes : nat) (db : Db) (opts : Opts)
    (g : Graph) (info : TableInfo) (pk : string) (rest : list string)
    (i : string) (cs : list N) :
  build_graph (db_tables db) (db_fks db) None = Ok g ->
  Dict.get g (opt_table opts) = Some info ->
  pks info = pk :: rest ->
  i ∈ opt_ids opts ->
  code_points i = Some cs ->
  cs ≠ [] ->
  (∀ c, c ∈ cs -> digit c = true) ->
  (∃ c, c ∈ cs ∧ decimal c = None) ∨ int_max_str_digits < length cs ->
  explode limit passes db opts
  = (if decide (fks info = []) then [] else [Print warning],
     Failed ValueError).
Proof.
  intros Hbuilt Hget Hpk Hin Hcs Hne Hdigits Hbad.
  assert (Hi : param i = Raise ValueError).
  { unfold param, isdigit, int_digits. rewrite Hcs.
    destruct cs as [|c cs']; [done|].
    assert (forallb digit (c :: cs') = true) as ->.
    { apply forallb_forall. intros c' Hc'. by apply Hdigits, list_elem_of_In. }
    case_decide as Hlen.
    - destruct Hbad as [(c' & Hc' & Hnone)|Hlong]; [|lia].
      destruct (mapM decimal (c :: cs')) as [ds|] eqn:Hds; [|done].
      apply mapM_Some_1 in Hds.
      apply list_elem_of_lookup in Hc' as [k Hk].
      destruct (Forall2_lookup_l _ _ _ _ _ Hds Hk) as (d & _ & Hd).
      congruence.
    - done. }
  unfold explode. rewrite Hbuilt, Hget, Hpk, (params_raise _ i Hin Hi).
  unfold root_warning. by destruct (fks info).
Qed.

Lemma explode_rejects_digit_id_witness :
  explode 10 3 Scenario.item_db Examples.superscript_opts
  = (if decide ([("order", [("order_id", "id", false)])] = [])
     then [] else [Print warning],
     Failed ValueError).
Proof.
  apply (explode_rejects_digit_id 10 3 Scenario.item_db
           Examples.superscript_opts Scenario.graph
           {| pks := ["id"]; fks := [("order", [("order_id", "id", false)])] |}
           "id" [] "²" [178%N]).
  - reflexivity.
  - reflexivity.
  - reflexivity.
  - apply elem_of_cons. right. by left.
  - reflexivity.
  - done.
  - intros c [->|?%elem_of_nil]%elem_of_cons; [reflexivity|done].
  - left. exists 178%N. split; [by left|reflexivity].
Defined.
